(** * credit_model.py: closed-form prices of a call, a put and a forward

    A shallow embedding of [src/credit_model.py].  The classes of the
    source become records held in a heap, their methods become
    computations in a state-and-exception monad over that heap, and the
    arithmetic of the pricing formulas is written against an interface of
    Python numbers ([PyNum]) so that one and the same definition can be
    read in any arithmetic: over the real numbers, where the formulas
    are studied exactly, and over IEEE 754 binary64, the numbers the
    program computes with. *)

From Stdlib Require Import ZArith QArith List String Bool.
From Stdlib Require Import Reals Qreals Lra Lia Classical.
From Stdlib Require Floats.
Import ListNotations.
Open Scope string_scope.
Open Scope list_scope.

(** ** Python numbers

    The operations the source applies to numbers: the arithmetic
    operators of lines 155-159, 180 and 195, [np.sqrt], [np.exp],
    [np.log] and [scipy.stats.norm.cdf].  [of_int] and [of_float] read
    an integer literal ([100], [0]) and a decimal literal ([.5],
    [100.0]). *)

Class PyNum (A : Type) : Type := {
  of_int : Z -> A;
  of_float : Q -> A;
  add : A -> A -> A;
  sub : A -> A -> A;
  mul : A -> A -> A;
  truediv : A -> A -> A;
  neg : A -> A;
  np_sqrt : A -> A;
  np_exp : A -> A;
  np_log : A -> A;
  norm_cdf : A -> A
}.

(** ['{0}'.format(x)] for a number [x]. *)
Class PyFormat (A : Type) : Type := {
  format : A -> string
}.

Declare Scope py_scope.
Delimit Scope py_scope with py.
Infix "+" := add : py_scope.
Infix "-" := sub : py_scope.
Infix "*" := mul : py_scope.
Infix "/" := truediv : py_scope.
Notation "- x" := (neg x) : py_scope.

(** ** Objects and the heap *)

(** References to [Equity] and to [Option] instances. *)
Definition eref : Type := nat.
Definition oref : Type := nat.

(** The concrete classes of the source.  [Equity] and [Option] are
    abstract base classes: they have no instances of their own. *)
Inductive EquityClass : Type := TradableEquity.
Inductive OptionClass : Type := CallOption | PutOption | Forward.

Definition equity_class_name (c : EquityClass) : string :=
  match c with TradableEquity => "TradableEquity" end.

Definition option_class_name (c : OptionClass) : string :=
  match c with
  | CallOption => "CallOption"
  | PutOption => "PutOption"
  | Forward => "Forward"
  end.

(** The exceptions a method of the source can end in.
    [InvalidReference] stands for a reference to no object; Python has
    none, and no heap built by the constructors below has one. *)
Inductive exn : Type :=
| AttributeError (type_name attribute : string)
| TypeError (message : string)
| InvalidReference.

Inductive outcome (X : Type) : Type :=
| Returned (x : X)
| Raised (e : exn).
Arguments Returned {X} x.
Arguments Raised {X} e.


(** The attributes [Equity.__init__] sets (lines 34-39). *)
Record EquityObj : Type := {
  e_class : EquityClass;
  _market_name : string;
  _denominated : string;
  _country : string;
  _region : string
}.

Section Model.
Context {A : Type} {num : PyNum A} {fmt : PyFormat A}.

(** The attributes [Option.__init__] sets (lines 120-127).  The
    underlyer is a reference: options on one equity share it. *)
Record OptionObj : Type := {
  o_class : OptionClass;
  _underlyer : eref;
  _strike : A;
  _volatility : A;
  _interest_rate : A;
  _time_to_expiry : A;
  _option_type : string
}.

Record heap : Type := {
  equities : list EquityObj;
  options : list OptionObj
}.

Definition empty_heap : heap := {| equities := []; options := [] |}.

(** What a call can return. *)
Inductive value : Type :=
| VNone
| VStr (s : string)
| VNum (x : A)
| VEquity (e : eref)
| VOption (o : oref).

(** ** The monad of method calls: a heap in, an outcome and a heap out *)

Definition M (X : Type) : Type := heap -> outcome X * heap.

Definition ret {X : Type} (x : X) : M X := fun h => (Returned x, h).

Definition raise {X : Type} (e : exn) : M X := fun h => (Raised e, h).

Definition bind {X Y : Type} (m : M X) (k : X -> M Y) : M Y :=
  fun h =>
    match m h with
    | (Returned x, h') => k x h'
    | (Raised e, h') => (Raised e, h')
    end.

Notation "x <- m ;; k" := (bind m (fun x => k))
  (at level 61, m at next level, right associativity).

Definition load_equity (self : eref) : M EquityObj :=
  fun h =>
    match nth_error (equities h) self with
    | Some o => (Returned o, h)
    | None => (Raised InvalidReference, h)
    end.

Definition load_option (self : oref) : M OptionObj :=
  fun h =>
    match nth_error (options h) self with
    | Some o => (Returned o, h)
    | None => (Raised InvalidReference, h)
    end.

Definition alloc_equity (o : EquityObj) : M eref :=
  fun h =>
    (Returned (List.length (equities h)),
     {| equities := (equities h ++ [o])%list; options := options h |}).

Definition alloc_option (o : OptionObj) : M oref :=
  fun h =>
    (Returned (List.length (options h)),
     {| equities := equities h; options := (options h ++ [o])%list |}).

(** ** class Equity (lines 6-43) *)

Definition Equity_get_name (self : eref) : M string :=
  o <- load_equity self ;; ret (_market_name o).

Definition Equity_get_denominated (self : eref) : M string :=
  o <- load_equity self ;; ret (_denominated o).

(** ['Equity: {0} ({1})'.format(self.get_name(), self.get_denominated())] *)
Definition Equity_repr (self : eref) : M string :=
  name <- Equity_get_name self ;;
  denominated <- Equity_get_denominated self ;;
  ret ("Equity: " ++ name ++ " (" ++ denominated ++ ")")%string.

Definition Equity_str (self : eref) : M string := Equity_repr self.

(** The abstract [get_spot]: its body is [pass]. *)
Definition Equity_get_spot (self : eref) : M value := ret VNone.

Definition Equity_init (cls : EquityClass)
    (market_name denominated country region : string) : EquityObj :=
  {| e_class := cls;
     _market_name := market_name;
     _denominated := denominated;
     _country := country;
     _region := region |}.

(** ** class TradableEquity (lines 46-56) *)

Definition TradableEquity_new
    (market_name denominated country region : string) : M eref :=
  alloc_equity (Equity_init TradableEquity market_name denominated country region).

Definition TradableEquity_get_spot (self : eref) : M A :=
  ret (of_float 100).

(** ** Attribute lookup on an equity

    A method called by name on an equity is looked up as Python does:
    in the instance's attributes, then in the dictionaries of its class
    and of the bases of its class.  The attributes every Python object
    inherits from [object] are left out. *)

Inductive member : Type :=
| Method (m : nat -> M value)
| MethodWithArguments.

Definition Equity_dict : list (string * member) :=
  [ ("get_name", Method (fun self => s <- Equity_get_name self ;; ret (VStr s)));
    ("get_denominated",
       Method (fun self => s <- Equity_get_denominated self ;; ret (VStr s)));
    ("__repr__", Method (fun self => s <- Equity_repr self ;; ret (VStr s)));
    ("__str__", Method (fun self => s <- Equity_str self ;; ret (VStr s)));
    ("__init__", MethodWithArguments);
    ("get_spot", Method Equity_get_spot) ].

Definition TradableEquity_dict : list (string * member) :=
  [ ("__init__", MethodWithArguments);
    ("get_spot",
       Method (fun self => x <- TradableEquity_get_spot self ;; ret (VNum x))) ].

Definition equity_mro (c : EquityClass) : list (list (string * member)) :=
  match c with
  | TradableEquity => [TradableEquity_dict; Equity_dict]
  end.

Definition instance_dict (o : EquityObj) : list (string * value) :=
  [ ("_market_name", VStr (_market_name o));
    ("_denominated", VStr (_denominated o));
    ("_country", VStr (_country o));
    ("_region", VStr (_region o)) ].

Fixpoint assoc {X : Type} (name : string) (d : list (string * X)) : option X :=
  match d with
  | [] => None
  | (k, x) :: d' => if String.eqb name k then Some x else assoc name d'
  end.

Fixpoint class_lookup (name : string) (mro : list (list (string * member)))
    : option member :=
  match mro with
  | [] => None
  | d :: mro' =>
      match assoc name d with
      | Some m => Some m
      | None => class_lookup name mro'
      end
  end.

(** [target.name()] for an equity [target]. *)
Definition equity_call (target : eref) (name : string) : M value :=
  o <- load_equity target ;;
  match assoc name (instance_dict o) with
  | Some _ => raise (TypeError "'str' object is not callable")
  | None =>
      match class_lookup name (equity_mro (e_class o)) with
      | Some (Method m) => m target
      | Some MethodWithArguments =>
          raise (TypeError "missing required positional arguments")
      | None => raise (AttributeError (equity_class_name (e_class o)) name)
      end
  end.

(** A value used as an operand of arithmetic. *)
Definition as_number (v : value) : M A :=
  match v with
  | VNum x => ret x
  | _ => raise (TypeError "unsupported operand type(s)")
  end.

(** ** class Option (lines 59-138) *)

Definition Option_get_underlyer (self : oref) : M eref :=
  o <- load_option self ;; ret (_underlyer o).

(** Lines 69-74: [underlyer.spot()]. *)
Definition Option_get_underlyer_spot (self : oref) : M value :=
  underlyer <- Option_get_underlyer self ;;
  equity_call underlyer "spot".

Definition Option_get_strike (self : oref) : M A :=
  o <- load_option self ;; ret (_strike o).

Definition Option_get_volatility (self : oref) : M A :=
  o <- load_option self ;; ret (_volatility o).

Definition Option_get_interest_rate (self : oref) : M A :=
  o <- load_option self ;; ret (_interest_rate o).

Definition Option_get_time_to_expiry (self : oref) : M A :=
  o <- load_option self ;; ret (_time_to_expiry o).

Definition Option_get_option_type (self : oref) : M string :=
  o <- load_option self ;; ret (_option_type o).

Definition Option_init (cls : OptionClass) (S : eref) (K sigma r T : A)
    (option_type : string) : OptionObj :=
  {| o_class := cls;
     _underlyer := S;
     _strike := K;
     _volatility := sigma;
     _interest_rate := r;
     _time_to_expiry := T;
     _option_type := option_type |}.

(** ['{0} on {1}, with strike {2}, ...'.format(...)] (lines 106-115).
    The arguments are evaluated from left to right. *)
Definition format_value (v : value) : string :=
  match v with
  | VNone => "None"
  | VStr s => s
  | VNum x => format x
  | VEquity _ => "<Equity>"
  | VOption _ => "<Option>"
  end.

Definition Option_repr (self : oref) : M string :=
  a0 <- Option_get_option_type self ;;
  a1 <- (underlyer <- Option_get_underlyer self ;;
         equity_call underlyer "get_name") ;;
  a2 <- Option_get_strike self ;;
  a3 <- Option_get_interest_rate self ;;
  a4 <- Option_get_time_to_expiry self ;;
  a5 <- Option_get_volatility self ;;
  ret (a0 ++ " on " ++ format_value a1 ++ ", with strike " ++ format a2
       ++ ", interest rate " ++ format a3 ++ ", expiring in " ++ format a4
       ++ ", volatility = " ++ format a5)%string.

Definition Option_str (self : oref) : M string := Option_repr self.

(** The abstract [price]: its body is [pass]. *)
Definition Option_price_abstract (self : oref) : M value := ret VNone.

(** ** class CallOption (lines 141-159) *)

Definition CallOption_new (S : eref) (K sigma r T : A) : M oref :=
  alloc_option (Option_init CallOption S K sigma r T "call").

(** Lines 154-159: the value computed from the five locals. *)
Definition CallOption_value (S K t r sigma : A) : A :=
  (let sqrt_t := np_sqrt t in
   let d1 := np_log (S * np_exp (r * t) / K) / (sigma * sqrt_t)
             + of_float 0.5 * sigma * sqrt_t in
   let d2 := d1 - sigma * sqrt_t in
   let N := fun x => norm_cdf x in
   S * N d1 - K * np_exp (- r * t) * N d2)%py.

Definition CallOption_price (self : oref) : M A :=
  S <- (underlyer <- Option_get_underlyer self ;;
        equity_call underlyer "get_spot") ;;
  K <- Option_get_strike self ;;
  t <- Option_get_time_to_expiry self ;;
  r <- Option_get_interest_rate self ;;
  sigma <- Option_get_volatility self ;;
  S <- as_number S ;;
  ret (CallOption_value S K t r sigma).

(** ** class PutOption (lines 162-180) *)

Definition PutOption_new (S : eref) (K sigma r T : A) : M oref :=
  alloc_option (Option_init PutOption S K sigma r T "put").

(** Lines 175-180. *)
Definition PutOption_value (S K t r sigma : A) : A :=
  (let sqrt_t := np_sqrt t in
   let d1 := np_log (S * np_exp (r * t) / K) / (sigma * sqrt_t)
             + of_float 0.5 * sigma * sqrt_t in
   let d2 := d1 - sigma * sqrt_t in
   let N := fun x => norm_cdf x in
   - S * N (- d1) + K * np_exp (- r * t) * N (- d2))%py.

Definition PutOption_price (self : oref) : M A :=
  S <- (underlyer <- Option_get_underlyer self ;;
        equity_call underlyer "get_spot") ;;
  K <- Option_get_strike self ;;
  t <- Option_get_time_to_expiry self ;;
  r <- Option_get_interest_rate self ;;
  sigma <- Option_get_volatility self ;;
  S <- as_number S ;;
  ret (PutOption_value S K t r sigma).

(** ** class Forward (lines 183-195) *)

Definition Forward_new (S : eref) (K r T : A) : M oref :=
  alloc_option (Option_init Forward S K (of_int 0) r T "forward").

(** Line 195. *)
Definition Forward_value (S K t r : A) : A :=
  (S - K * np_exp (- r * t))%py.

Definition Forward_price (self : oref) : M A :=
  S <- (underlyer <- Option_get_underlyer self ;;
        equity_call underlyer "get_spot") ;;
  K <- Option_get_strike self ;;
  t <- Option_get_time_to_expiry self ;;
  r <- Option_get_interest_rate self ;;
  S <- as_number S ;;
  ret (Forward_value S K t r).

(** [self.price()]: the method of the instance's class. *)
Definition price (self : oref) : M A :=
  o <- load_option self ;;
  match o_class o with
  | CallOption => CallOption_price self
  | PutOption => PutOption_price self
  | Forward => Forward_price self
  end.

(** ** Attribute lookup on an option *)

Definition lift_str (m : nat -> M string) : member :=
  Method (fun self => s <- m self ;; ret (VStr s)).

Definition lift_num (m : nat -> M A) : member :=
  Method (fun self => x <- m self ;; ret (VNum x)).

Definition Option_dict : list (string * member) :=
  [ ("get_underlyer",
       Method (fun self => u <- Option_get_underlyer self ;; ret (VEquity u)));
    ("get_underlyer_spot", Method Option_get_underlyer_spot);
    ("get_strike", lift_num Option_get_strike);
    ("get_volatility", lift_num Option_get_volatility);
    ("get_interest_rate", lift_num Option_get_interest_rate);
    ("get_time_to_expiry", lift_num Option_get_time_to_expiry);
    ("get_option_type", lift_str Option_get_option_type);
    ("__repr__", lift_str Option_repr);
    ("__str__", lift_str Option_str);
    ("__init__", MethodWithArguments);
    ("price", Method Option_price_abstract) ].

Definition CallOption_dict : list (string * member) :=
  [ ("__init__", MethodWithArguments); ("price", lift_num CallOption_price) ].

Definition PutOption_dict : list (string * member) :=
  [ ("__init__", MethodWithArguments); ("price", lift_num PutOption_price) ].

Definition Forward_dict : list (string * member) :=
  [ ("__init__", MethodWithArguments); ("price", lift_num Forward_price) ].

Definition option_mro (c : OptionClass) : list (list (string * member)) :=
  match c with
  | CallOption => [CallOption_dict; Option_dict]
  | PutOption => [PutOption_dict; Option_dict]
  | Forward => [Forward_dict; Option_dict]
  end.

Definition option_instance_dict (o : OptionObj) : list (string * value) :=
  [ ("_underlyer", VEquity (_underlyer o));
    ("_strike", VNum (_strike o));
    ("_volatility", VNum (_volatility o));
    ("_interest_rate", VNum (_interest_rate o));
    ("_time_to_expiry", VNum (_time_to_expiry o));
    ("_option_type", VStr (_option_type o)) ].

(** [target.name()] for an option [target]. *)
Definition option_call (target : oref) (name : string) : M value :=
  o <- load_option target ;;
  match assoc name (option_instance_dict o) with
  | Some _ => raise (TypeError "object is not callable")
  | None =>
      match class_lookup name (option_mro (o_class o)) with
      | Some (Method m) => m target
      | Some MethodWithArguments =>
          raise (TypeError "missing required positional arguments")
      | None => raise (AttributeError (option_class_name (o_class o)) name)
      end
  end.

(** ** The operations a client of the module can perform *)

Inductive operation : Type :=
| NewTradableEquity (market_name denominated country region : string)
| NewCallOption (S : eref) (K sigma r T : A)
| NewPutOption (S : eref) (K sigma r T : A)
| NewForward (S : eref) (K r T : A)
| OnEquity (e : eref) (name : string)
| OnOption (o : oref) (name : string).

Definition run (op : operation) : M value :=
  match op with
  | NewTradableEquity n d c r =>
      e <- TradableEquity_new n d c r ;; ret (VEquity e)
  | NewCallOption u K sigma r T =>
      o <- CallOption_new u K sigma r T ;; ret (VOption o)
  | NewPutOption u K sigma r T =>
      o <- PutOption_new u K sigma r T ;; ret (VOption o)
  | NewForward u K r T =>
      o <- Forward_new u K r T ;; ret (VOption o)
  | OnEquity e name => equity_call e name
  | OnOption o name => option_call o name
  end.

(** The heap left by a sequence of operations, whatever each returns or
    raises. *)
Fixpoint run_all (ops : list operation) (h : heap) : heap :=
  match ops with
  | [] => h
  | op :: ops' => run_all ops' (snd (run op h))
  end.

(** ** The script (lines 198-212)

    It returns the lines it prints. *)
Definition main : M (list string) :=
  s1 <- TradableEquity_new ".SPX" "USD" "US" "North America" ;;
  let K := of_int 100 in
  let sigma := of_float 0.2 in
  let r := of_float 0.1 in
  let T := of_int 1 in
  c <- CallOption_new s1 K sigma r T ;;
  p <- PutOption_new s1 K sigma r T ;;
  f <- Forward_new s1 K r T ;;
  line1 <- Equity_str s1 ;;
  line2 <- Option_str c ;;
  line3 <- Option_str p ;;
  line4 <- Option_str f ;;
  cp <- price c ;;
  pp <- price p ;;
  fp <- price f ;;
  ret [ line1; line2; line3; line4;
        "Checking the put call parity:";
        ("c-p-f = " ++ format (cp - pp - fp)%py)%string ].


(** ** Facts about the model in any arithmetic *)

(** [underlyer.get_spot()] returns the number [S] in the heap [h]. *)
Definition spot_is (h : heap) (underlyer : eref) (S : A) : Prop :=
  equity_call underlyer "get_spot" h = (Returned (VNum S), h).

(** A computation that leaves the heap as it found it. *)
Definition read_only {X : Type} (m : M X) : Prop :=
  forall h, snd (m h) = h.

Lemma read_only_ret {X : Type} (x : X) : read_only (ret x).
Proof. intros h. reflexivity. Qed.

Lemma read_only_raise {X : Type} (e : exn) : read_only (raise (X := X) e).
Proof. intros h. reflexivity. Qed.

Lemma read_only_bind {X Y : Type} (m : M X) (k : X -> M Y) :
  read_only m -> (forall x, read_only (k x)) -> read_only (bind m k).
Proof.
  intros Hm Hk h. unfold bind. specialize (Hm h).
  destruct (m h) as [[x | e] h']; simpl in *; subst h'.
  - apply Hk.
  - reflexivity.
Qed.

Lemma read_only_load_equity (self : eref) : read_only (load_equity self).
Proof.
  intros h. unfold load_equity. destruct (nth_error (equities h) self); reflexivity.
Qed.

Lemma read_only_load_option (self : oref) : read_only (load_option self).
Proof.
  intros h. unfold load_option. destruct (nth_error (options h) self); reflexivity.
Qed.

Ltac read_only_tac :=
  repeat first
    [ apply read_only_ret
    | apply read_only_raise
    | apply read_only_load_equity
    | apply read_only_load_option
    | apply read_only_bind; [| intros ? ] ].

Lemma read_only_as_number (v : value) : read_only (as_number v).
Proof. destruct v; read_only_tac. Qed.

(** A class dictionary all of whose methods are read-only. *)
Definition read_only_member (m : member) : Prop :=
  match m with
  | Method f => forall self, read_only (f self)
  | MethodWithArguments => True
  end.

Definition read_only_dict (d : list (string * member)) : Prop :=
  Forall (fun entry => read_only_member (snd entry)) d.

Lemma assoc_Forall {X : Type} (P : X -> Prop) (name : string)
    (d : list (string * X)) (x : X) :
  Forall (fun entry => P (snd entry)) d -> assoc name d = Some x -> P x.
Proof.
  induction 1 as [| [k y] d' Hy _ IH]; simpl; [discriminate |].
  destruct (String.eqb name k); [| exact IH].
  intros E. injection E as <-. exact Hy.
Qed.

Lemma class_lookup_Forall (P : member -> Prop) (name : string)
    (mro : list (list (string * member))) (m : member) :
  Forall (Forall (fun entry => P (snd entry))) mro ->
  class_lookup name mro = Some m -> P m.
Proof.
  induction 1 as [| d mro' Hd _ IH]; simpl; [discriminate |].
  destruct (assoc name d) as [m' |] eqn:E; [| exact IH].
  intros E'. injection E' as <-. exact (assoc_Forall P name d m' Hd E).
Qed.

Lemma read_only_Equity_dict : read_only_dict Equity_dict.
Proof.
  repeat constructor; simpl; intros self;
    unfold Equity_str, Equity_repr, Equity_get_name,
      Equity_get_denominated, Equity_get_spot;
    read_only_tac.
Qed.

Lemma read_only_TradableEquity_dict : read_only_dict TradableEquity_dict.
Proof.
  repeat constructor; simpl; intros self; unfold TradableEquity_get_spot;
    read_only_tac.
Qed.

Lemma read_only_equity_mro (c : EquityClass) :
  Forall read_only_dict (equity_mro c).
Proof.
  destruct c; simpl.
  apply Forall_cons; [apply read_only_TradableEquity_dict |].
  apply Forall_cons; [apply read_only_Equity_dict | apply Forall_nil].
Qed.

Lemma read_only_member_call (m : option member) (target : nat)
    (type_name name : string) :
  (forall f, m = Some f -> read_only_member f) ->
  read_only
    (match m with
     | Some (Method f) => f target
     | Some MethodWithArguments =>
         raise (TypeError "missing required positional arguments")
     | None => raise (X := value) (AttributeError type_name name)
     end).
Proof.
  intros H. destruct m as [[f |] |]; read_only_tac.
  exact (H (Method f) eq_refl target).
Qed.

Lemma read_only_equity_call (target : eref) (name : string) :
  read_only (equity_call target name).
Proof.
  unfold equity_call. read_only_tac.
  destruct (assoc name (instance_dict x)); read_only_tac.
  apply read_only_member_call. intros f E.
  exact (class_lookup_Forall read_only_member name _ _
           (read_only_equity_mro (e_class x)) E).
Qed.

Ltac read_only_option_tac :=
  unfold Option_str, Option_repr, Option_get_underlyer_spot,
    Option_get_underlyer, Option_get_strike, Option_get_volatility,
    Option_get_interest_rate, Option_get_time_to_expiry,
    Option_get_option_type, Option_price_abstract;
  repeat first
    [ apply read_only_equity_call
    | apply read_only_as_number
    | apply read_only_ret
    | apply read_only_raise
    | apply read_only_load_option
    | apply read_only_bind; [| intros ? ] ].

Lemma read_only_CallOption_price (self : oref) : read_only (CallOption_price self).
Proof. unfold CallOption_price. read_only_option_tac. Qed.

Lemma read_only_PutOption_price (self : oref) : read_only (PutOption_price self).
Proof. unfold PutOption_price. read_only_option_tac. Qed.

Lemma read_only_Forward_price (self : oref) : read_only (Forward_price self).
Proof. unfold Forward_price. read_only_option_tac. Qed.

Lemma read_only_price (self : oref) : read_only (price self).
Proof.
  unfold price. read_only_option_tac.
  destruct (o_class x);
    auto using read_only_CallOption_price, read_only_PutOption_price,
      read_only_Forward_price.
Qed.

Lemma read_only_Option_dict : read_only_dict Option_dict.
Proof.
  repeat constructor; simpl; intros self; read_only_option_tac.
Qed.

Lemma read_only_option_mro (c : OptionClass) :
  Forall read_only_dict (option_mro c).
Proof.
  destruct c; simpl;
    (apply Forall_cons;
     [| apply Forall_cons; [apply read_only_Option_dict | apply Forall_nil]]);
    repeat constructor; simpl; intros self;
    (apply read_only_bind;
     [first [ apply read_only_CallOption_price
            | apply read_only_PutOption_price
            | apply read_only_Forward_price ]
     | intros ?; apply read_only_ret ]).
Qed.

Lemma read_only_option_call (target : oref) (name : string) :
  read_only (option_call target name).
Proof.
  unfold option_call. read_only_option_tac.
  destruct (assoc name (option_instance_dict x)); read_only_option_tac.
  apply read_only_member_call. intros f E.
  exact (class_lookup_Forall read_only_member name _ _
           (read_only_option_mro (o_class x)) E).
Qed.

(** ** What the calls on an underlyer return *)

Lemma equity_call_get_spot (underlyer : eref) (h : heap) :
  equity_call underlyer "get_spot" h
  = match nth_error (equities h) underlyer with
    | Some _ => (Returned (VNum (of_float 100)), h)
    | None => (Raised InvalidReference, h)
    end.
Proof.
  unfold equity_call, bind, load_equity.
  destruct (nth_error (equities h) underlyer) as [[[] n d c r] |]; reflexivity.
Qed.

Lemma equity_call_spot (underlyer : eref) (h : heap) :
  equity_call underlyer "spot" h
  = match nth_error (equities h) underlyer with
    | Some o =>
        (Raised (AttributeError (equity_class_name (e_class o)) "spot"), h)
    | None => (Raised InvalidReference, h)
    end.
Proof.
  unfold equity_call, bind, load_equity.
  destruct (nth_error (equities h) underlyer) as [[[] n d c r] |]; reflexivity.
Qed.

Lemma equity_call_get_name (underlyer : eref) (h : heap) :
  equity_call underlyer "get_name" h
  = match nth_error (equities h) underlyer with
    | Some o => (Returned (VStr (_market_name o)), h)
    | None => (Raised InvalidReference, h)
    end.
Proof.
  unfold equity_call, bind, load_equity.
  destruct (nth_error (equities h) underlyer) as [[[] n d c r] |] eqn:E;
    [| reflexivity].
  cbn. unfold Equity_get_name, bind, load_equity. rewrite E. reflexivity.
Qed.

Lemma spot_is_inv (h : heap) (underlyer : eref) (S : A) :
  spot_is h underlyer S ->
  S = of_float 100 /\ exists o, nth_error (equities h) underlyer = Some o.
Proof.
  unfold spot_is. rewrite equity_call_get_spot.
  destruct (nth_error (equities h) underlyer) as [o |]; [| discriminate].
  intros E. injection E as <-. split; [reflexivity | exists o; reflexivity].
Qed.

Lemma spot_is_intro (h : heap) (underlyer : eref) (o : EquityObj) :
  nth_error (equities h) underlyer = Some o ->
  spot_is h underlyer (of_float 100).
Proof.
  intros E. unfold spot_is. rewrite equity_call_get_spot, E. reflexivity.
Qed.

(** ** What [price] returns on an instance of each class *)

Lemma CallOption_price_eq (h : heap) (self : oref) (o : OptionObj) (S : A) :
  nth_error (options h) self = Some o ->
  spot_is h (_underlyer o) S ->
  CallOption_price self h
  = (Returned (CallOption_value S (_strike o) (_time_to_expiry o)
                 (_interest_rate o) (_volatility o)), h).
Proof.
  intros Ho HS. unfold spot_is in HS.
  unfold CallOption_price, Option_get_underlyer, Option_get_strike,
    Option_get_time_to_expiry, Option_get_interest_rate,
    Option_get_volatility, bind, load_option, ret.
  repeat (progress (rewrite ?Ho, ?HS; cbn)). reflexivity.
Qed.

Lemma PutOption_price_eq (h : heap) (self : oref) (o : OptionObj) (S : A) :
  nth_error (options h) self = Some o ->
  spot_is h (_underlyer o) S ->
  PutOption_price self h
  = (Returned (PutOption_value S (_strike o) (_time_to_expiry o)
                 (_interest_rate o) (_volatility o)), h).
Proof.
  intros Ho HS. unfold spot_is in HS.
  unfold PutOption_price, Option_get_underlyer, Option_get_strike,
    Option_get_time_to_expiry, Option_get_interest_rate,
    Option_get_volatility, bind, load_option, ret.
  repeat (progress (rewrite ?Ho, ?HS; cbn)). reflexivity.
Qed.

Lemma Forward_price_eq (h : heap) (self : oref) (o : OptionObj) (S : A) :
  nth_error (options h) self = Some o ->
  spot_is h (_underlyer o) S ->
  Forward_price self h
  = (Returned (Forward_value S (_strike o) (_time_to_expiry o)
                 (_interest_rate o)), h).
Proof.
  intros Ho HS. unfold spot_is in HS.
  unfold Forward_price, Option_get_underlyer, Option_get_strike,
    Option_get_time_to_expiry, Option_get_interest_rate, bind, load_option, ret.
  repeat (progress (rewrite ?Ho, ?HS; cbn)). reflexivity.
Qed.

Lemma price_eq (h : heap) (self : oref) (o : OptionObj) (S : A) :
  nth_error (options h) self = Some o ->
  spot_is h (_underlyer o) S ->
  price self h
  = (Returned
       match o_class o with
       | CallOption =>
           CallOption_value S (_strike o) (_time_to_expiry o)
             (_interest_rate o) (_volatility o)
       | PutOption =>
           PutOption_value S (_strike o) (_time_to_expiry o)
             (_interest_rate o) (_volatility o)
       | Forward =>
           Forward_value S (_strike o) (_time_to_expiry o) (_interest_rate o)
       end, h).
Proof.
  intros Ho HS. unfold price, bind at 1, load_option. rewrite Ho.
  destruct (o_class o).
  - exact (CallOption_price_eq h self o S Ho HS).
  - exact (PutOption_price_eq h self o S Ho HS).
  - exact (Forward_price_eq h self o S Ho HS).
Qed.

(** ** Operations only add objects to the heap *)

Definition extends (h h' : heap) : Prop :=
  exists es os,
    equities h' = equities h ++ es /\ options h' = options h ++ os.

Lemma extends_refl (h : heap) : extends h h.
Proof. exists [], []. rewrite !app_nil_r. split; reflexivity. Qed.

Lemma extends_trans (h1 h2 h3 : heap) :
  extends h1 h2 -> extends h2 h3 -> extends h1 h3.
Proof.
  intros (es & os & E1 & O1) (es' & os' & E2 & O2).
  exists (es ++ es'), (os ++ os').
  rewrite E2, O2, E1, O1, !app_assoc. split; reflexivity.
Qed.

Lemma run_extends (op : operation) (h : heap) : extends h (snd (run op h)).
Proof.
  destruct op; simpl.
  - exists [Equity_init TradableEquity market_name denominated country region], [].
    simpl. rewrite app_nil_r. split; reflexivity.
  - exists [], [Option_init CallOption S K sigma r T "call"].
    simpl. rewrite app_nil_r. split; reflexivity.
  - exists [], [Option_init PutOption S K sigma r T "put"].
    simpl. rewrite app_nil_r. split; reflexivity.
  - exists [], [Option_init Forward S K (of_int 0) r T "forward"].
    simpl. rewrite app_nil_r. split; reflexivity.
  - rewrite read_only_equity_call. apply extends_refl.
  - rewrite read_only_option_call. apply extends_refl.
Qed.

Lemma run_all_extends (ops : list operation) (h : heap) :
  extends h (run_all ops h).
Proof.
  revert h. induction ops as [| op ops IH]; intros h; simpl.
  - apply extends_refl.
  - eapply extends_trans; [apply run_extends | apply IH].
Qed.

Lemma extends_equity (h h' : heap) (e : eref) (o : EquityObj) :
  extends h h' ->
  nth_error (equities h) e = Some o -> nth_error (equities h') e = Some o.
Proof.
  intros (es & os & E & _) H. rewrite E, nth_error_app1; [exact H |].
  apply nth_error_Some. rewrite H. discriminate.
Qed.

Lemma extends_option (h h' : heap) (self : oref) (o : OptionObj) :
  extends h h' ->
  nth_error (options h) self = Some o -> nth_error (options h') self = Some o.
Proof.
  intros (es & os & _ & E) H. rewrite E, nth_error_app1; [exact H |].
  apply nth_error_Some. rewrite H. discriminate.
Qed.

(** ** What an observer of the public operations can tell apart

    Two equities are alike when they differ at most in [_country] and
    [_region]; two heaps are alike when their equities are, one by one,
    and their options are the same. *)

Definition equity_low_eq (o1 o2 : EquityObj) : Prop :=
  e_class o1 = e_class o2
  /\ _market_name o1 = _market_name o2
  /\ _denominated o1 = _denominated o2.

Definition heap_low_eq (h1 h2 : heap) : Prop :=
  Forall2 equity_low_eq (equities h1) (equities h2)
  /\ options h1 = options h2.

Definition op_low_eq (op1 op2 : operation) : Prop :=
  match op1, op2 with
  | NewTradableEquity n1 d1 _ _, NewTradableEquity n2 d2 _ _ =>
      n1 = n2 /\ d1 = d2
  | _, _ => op1 = op2
  end.

(** What a sequence of operations returns or raises, one by one. *)
Fixpoint trace (ops : list operation) (h : heap) : list (outcome value) :=
  match ops with
  | [] => []
  | op :: ops' => fst (run op h) :: trace ops' (snd (run op h))
  end.

(** A read-only computation whose outcome is the same in alike heaps. *)
Definition low {X : Type} (m : M X) : Prop :=
  forall h1 h2,
    heap_low_eq h1 h2 ->
    fst (m h1) = fst (m h2) /\ snd (m h1) = h1 /\ snd (m h2) = h2.

Lemma low_ret {X : Type} (x : X) : low (ret x).
Proof. intros h1 h2 _. repeat split. Qed.

Lemma low_raise {X : Type} (e : exn) : low (raise (X := X) e).
Proof. intros h1 h2 _. repeat split. Qed.

Lemma low_bind {X Y : Type} (m : M X) (k : X -> M Y) :
  low m -> (forall x, low (k x)) -> low (bind m k).
Proof.
  intros Hm Hk h1 h2 H. unfold bind.
  destruct (Hm h1 h2 H) as (E & E1 & E2).
  destruct (m h1) as [r1 h1'], (m h2) as [r2 h2']; simpl in *; subst.
  destruct r2 as [x | e].
  - exact (Hk x h1 h2 H).
  - repeat split.
Qed.

Lemma Forall2_nth_error_rel {X : Type} (R : X -> X -> Prop) (l1 l2 : list X) :
  Forall2 R l1 l2 ->
  forall n,
    match nth_error l1 n, nth_error l2 n with
    | Some a, Some b => R a b
    | None, None => True
    | _, _ => False
    end.
Proof.
  induction 1 as [| a b l1 l2 Hab _ IH]; intros [| n]; simpl; auto.
  apply IH.
Qed.

Lemma low_load_option (self : oref) : low (load_option self).
Proof.
  intros h1 h2 [_ E]. unfold load_option. rewrite E.
  destruct (nth_error (options h2) self); repeat split.
Qed.

(** A field of an equity that alike equities agree on. *)
Lemma low_equity_field {X : Type} (field : EquityObj -> X) (self : eref) :
  (forall o1 o2, equity_low_eq o1 o2 -> field o1 = field o2) ->
  low (o <- load_equity self ;; ret (field o)).
Proof.
  intros Hf h1 h2 [E _]. unfold bind, load_equity, ret.
  assert (H := Forall2_nth_error_rel _ _ _ E self).
  destruct (nth_error (equities h1) self) as [o1 |],
           (nth_error (equities h2) self) as [o2 |]; simpl; try contradiction.
  - rewrite (Hf o1 o2 H). repeat split.
  - repeat split.
Qed.

Lemma low_Equity_get_name (self : eref) : low (Equity_get_name self).
Proof. apply low_equity_field. intros o1 o2 (_ & E & _). exact E. Qed.

Lemma low_Equity_get_denominated (self : eref) :
  low (Equity_get_denominated self).
Proof. apply low_equity_field. intros o1 o2 (_ & _ & E). exact E. Qed.

Lemma low_Equity_repr (self : eref) : low (Equity_repr self).
Proof.
  unfold Equity_repr.
  apply low_bind; [apply low_Equity_get_name | intros name].
  apply low_bind; [apply low_Equity_get_denominated | intros den].
  apply low_ret.
Qed.

Definition low_member (m : member) : Prop :=
  match m with
  | Method f => forall self, low (f self)
  | MethodWithArguments => True
  end.

Definition low_dict (d : list (string * member)) : Prop :=
  Forall (fun entry => low_member (snd entry)) d.

Lemma low_lift_str (m : nat -> M string) :
  (forall self, low (m self)) -> low_member (lift_str m).
Proof.
  intros H self. apply low_bind; [apply H | intros s; apply low_ret].
Qed.

Lemma low_lift_num (m : nat -> M A) :
  (forall self, low (m self)) -> low_member (lift_num m).
Proof.
  intros H self. apply low_bind; [apply H | intros s; apply low_ret].
Qed.

Lemma low_Equity_dict : low_dict Equity_dict.
Proof.
  unfold low_dict, Equity_dict.
  repeat (apply Forall_cons; [| try apply Forall_nil]); simpl; trivial.
  - apply (low_lift_str Equity_get_name), low_Equity_get_name.
  - apply (low_lift_str Equity_get_denominated), low_Equity_get_denominated.
  - apply (low_lift_str Equity_repr), low_Equity_repr.
  - apply (low_lift_str Equity_str), low_Equity_repr.
  - intros self. apply low_ret.
Qed.

Lemma low_TradableEquity_dict : low_dict TradableEquity_dict.
Proof.
  unfold low_dict, TradableEquity_dict.
  repeat (apply Forall_cons; [| try apply Forall_nil]); simpl; trivial.
  apply (low_lift_num TradableEquity_get_spot). intros self. apply low_ret.
Qed.

Lemma low_equity_mro (c : EquityClass) : Forall low_dict (equity_mro c).
Proof.
  destruct c; simpl.
  apply Forall_cons; [apply low_TradableEquity_dict |].
  apply Forall_cons; [apply low_Equity_dict | apply Forall_nil].
Qed.

Lemma low_member_call (m : option member) (target : nat)
    (type_name name : string) :
  (forall f, m = Some f -> low_member f) ->
  low
    (match m with
     | Some (Method f) => f target
     | Some MethodWithArguments =>
         raise (TypeError "missing required positional arguments")
     | None => raise (X := value) (AttributeError type_name name)
     end).
Proof.
  intros H. destruct m as [[f |] |]; try apply low_raise.
  exact (H (Method f) eq_refl target).
Qed.

(** Whether a name is an instance attribute does not depend on the
    values of the attributes. *)
Lemma assoc_instance_dict (name : string) (o1 o2 : EquityObj) :
  assoc name (instance_dict o1) = None ->
  assoc name (instance_dict o2) = None.
Proof.
  unfold instance_dict. simpl.
  repeat match goal with
         | |- context [String.eqb name ?k] => destruct (String.eqb name k)
         end; trivial; discriminate.
Qed.

Lemma low_equity_call (target : eref) (name : string) :
  low (equity_call target name).
Proof.
  intros h1 h2 H. destruct H as [E EO].
  assert (R := Forall2_nth_error_rel _ _ _ E target).
  unfold equity_call, bind, load_equity.
  destruct (nth_error (equities h1) target) as [o1 |],
           (nth_error (equities h2) target) as [o2 |]; cbv beta iota in *;
    try contradiction; [| repeat split].
  destruct R as (Ec & _).
  destruct (assoc name (instance_dict o1)) eqn:E1,
           (assoc name (instance_dict o2)) eqn:E2;
    try (repeat split; fail).
  - rewrite (assoc_instance_dict name o2 o1 E2) in E1. discriminate.
  - rewrite (assoc_instance_dict name o1 o2 E1) in E2. discriminate.
  - rewrite Ec.
    apply (low_member_call (class_lookup name (equity_mro (e_class o2)))
             target (equity_class_name (e_class o2)) name).
    + intros f Ef.
      exact (class_lookup_Forall low_member name _ _
               (low_equity_mro (e_class o2)) Ef).
    + split; assumption.
Qed.

Ltac low_tac :=
  unfold Option_str, Option_repr, Option_get_underlyer_spot,
    Option_get_underlyer, Option_get_strike, Option_get_volatility,
    Option_get_interest_rate, Option_get_time_to_expiry,
    Option_get_option_type, Option_price_abstract;
  repeat first
    [ apply low_equity_call
    | apply low_ret
    | apply low_raise
    | apply low_load_option
    | apply low_bind; [| intros ? ] ].

Lemma low_as_number (v : value) : low (as_number v).
Proof. destruct v; low_tac. Qed.

Lemma low_CallOption_price (self : oref) : low (CallOption_price self).
Proof. unfold CallOption_price. low_tac. apply low_as_number. Qed.

Lemma low_PutOption_price (self : oref) : low (PutOption_price self).
Proof. unfold PutOption_price. low_tac. apply low_as_number. Qed.

Lemma low_Forward_price (self : oref) : low (Forward_price self).
Proof. unfold Forward_price. low_tac. apply low_as_number. Qed.

Lemma low_price (self : oref) : low (price self).
Proof.
  unfold price. low_tac.
  destruct (o_class x);
    auto using low_CallOption_price, low_PutOption_price, low_Forward_price.
Qed.

Lemma low_Option_dict : low_dict Option_dict.
Proof.
  unfold low_dict, Option_dict, lift_num, lift_str.
  repeat (apply Forall_cons; [| try apply Forall_nil]); simpl; trivial;
    intros self; low_tac.
Qed.

Lemma low_option_mro (c : OptionClass) : Forall low_dict (option_mro c).
Proof.
  destruct c; simpl;
    (apply Forall_cons;
     [| apply Forall_cons; [apply low_Option_dict | apply Forall_nil]]);
    (apply Forall_cons; [exact I |]);
    (apply Forall_cons; [| apply Forall_nil]); simpl.
  - apply (low_lift_num CallOption_price), low_CallOption_price.
  - apply (low_lift_num PutOption_price), low_PutOption_price.
  - apply (low_lift_num Forward_price), low_Forward_price.
Qed.

Lemma low_option_call (target : oref) (name : string) :
  low (option_call target name).
Proof.
  unfold option_call. low_tac.
  destruct (assoc name (option_instance_dict x)); low_tac.
  apply low_member_call. intros f E.
  exact (class_lookup_Forall low_member name _ _
           (low_option_mro (o_class x)) E).
Qed.

Lemma heap_low_eq_refl (h : heap) : heap_low_eq h h.
Proof.
  split; [| reflexivity].
  induction (equities h); constructor; [repeat split | assumption].
Qed.

(** One operation, run in alike heaps on alike arguments, returns the
    same and leaves alike heaps. *)
Lemma run_low (op1 op2 : operation) (h1 h2 : heap) :
  heap_low_eq h1 h2 -> op_low_eq op1 op2 ->
  fst (run op1 h1) = fst (run op2 h2)
  /\ heap_low_eq (snd (run op1 h1)) (snd (run op2 h2)).
Proof.
  intros H Hop.
  assert (Hlen : List.length (equities h1) = List.length (equities h2)).
  { destruct H as [E _]. exact (Forall2_length E). }
  destruct op1, op2; simpl in Hop; try discriminate;
    try (injection Hop as <-; intros; subst).
  - destruct Hop as [<- <-]. destruct H as [E EO]. simpl.
    rewrite Hlen. split; [reflexivity |]. split; [| exact EO]. simpl.
    apply Forall2_app; [exact E |].
    constructor; [repeat split | constructor].
  - destruct H as [E EO]. simpl. rewrite EO.
    split; [reflexivity |]. split; [exact E | reflexivity].
  - destruct H as [E EO]. simpl. rewrite EO.
    split; [reflexivity |]. split; [exact E | reflexivity].
  - destruct H as [E EO]. simpl. rewrite EO.
    split; [reflexivity |]. split; [exact E | reflexivity].
  - simpl.
    match goal with
    | |- context [equity_call ?e ?n h1] =>
        destruct (low_equity_call e n h1 h2 H) as (R & S1 & S2)
    end.
    rewrite S1, S2. split; assumption.
  - simpl.
    match goal with
    | |- context [option_call ?o ?n h1] =>
        destruct (low_option_call o n h1 h2 H) as (R & S1 & S2)
    end.
    rewrite S1, S2. split; assumption.
Qed.

Lemma trace_low (ops1 ops2 : list operation) :
  Forall2 op_low_eq ops1 ops2 ->
  forall h1 h2, heap_low_eq h1 h2 -> trace ops1 h1 = trace ops2 h2.
Proof.
  induction 1 as [| op1 op2 ops1 ops2 Hop _ IH]; intros h1 h2 H; simpl.
  - reflexivity.
  - destruct (run_low op1 op2 h1 h2 H Hop) as [R H'].
    rewrite R, (IH _ _ H'). reflexivity.
Qed.

(** ** Prices of freshly built instruments *)

Lemma nth_error_snoc {X : Type} (l : list X) (x : X) :
  nth_error (l ++ [x]) (List.length l) = Some x.
Proof.
  rewrite nth_error_app2 by apply Nat.le_refl.
  rewrite Nat.sub_diag. reflexivity.
Qed.

Lemma spot_is_equities (h h' : heap) (underlyer : eref) (S : A) :
  equities h' = equities h -> spot_is h underlyer S -> spot_is h' underlyer S.
Proof.
  intros E H. destruct (spot_is_inv _ _ _ H) as [-> [o Ho]].
  apply (spot_is_intro h' underlyer o). rewrite E. exact Ho.
Qed.

(** [o = cls(S, ...); o.price()], for a new option [o]. *)
Lemma price_alloc_option (h : heap) (o : OptionObj) (S : A) :
  spot_is h (_underlyer o) S ->
  exists h',
    alloc_option o h = (Returned (List.length (options h)), h')
    /\ equities h' = equities h
    /\ nth_error (options h') (List.length (options h)) = Some o
    /\ extends h h'
    /\ price (List.length (options h)) h'
       = (Returned
            match o_class o with
            | CallOption =>
                CallOption_value S (_strike o) (_time_to_expiry o)
                  (_interest_rate o) (_volatility o)
            | PutOption =>
                PutOption_value S (_strike o) (_time_to_expiry o)
                  (_interest_rate o) (_volatility o)
            | Forward =>
                Forward_value S (_strike o) (_time_to_expiry o)
                  (_interest_rate o)
            end, h').
Proof.
  intros HS.
  exists {| equities := equities h; options := options h ++ [o] |}.
  assert (Hn : nth_error (options h ++ [o]) (List.length (options h)) = Some o)
    by apply nth_error_snoc.
  repeat split.
  - exact Hn.
  - exists [], [o]. simpl. rewrite app_nil_r. split; reflexivity.
  - apply price_eq; [exact Hn |].
    apply (spot_is_equities h); [reflexivity | exact HS].
Qed.



End Model.

Arguments OptionObj : clear implicits.
Arguments heap : clear implicits.
Arguments value : clear implicits.
Arguments operation : clear implicits.
Arguments M : clear implicits.

Notation "x <- m ;; k" := (bind m (fun x => k))
  (at level 61, m at next level, right associativity).

(** * Real arithmetic

    The exact-real reading of the numbers of the source: float64
    arithmetic without rounding, on the domain where the operations are
    defined (a positive argument of [np.log], a non-zero divisor). *)

Open Scope R_scope.

(** ** The standard normal distribution function

    [norm.cdf] is the distribution function of the density proportional
    to [exp (- x^2 / 2)].  It is built here from the integral of that
    function from 0 to [x] and from the supremum of these integrals,
    which is half of the total mass. *)

Definition gauss (x : R) : R := exp (- (x * x) / 2).

Lemma gauss_pos x : 0 < gauss x.
Proof. apply exp_pos. Qed.

Lemma gauss_even x : gauss (- x) = gauss x.
Proof. unfold gauss. f_equal. lra. Qed.

Lemma gauss_continuity : continuity gauss.
Proof. unfold gauss. reg. Qed.

Lemma gauss_integrable (a b : R) : Riemann_integrable gauss a b.
Proof.
  destruct (Rle_dec a b) as [Hab | Hab].
  - apply continuity_implies_RiemannInt;
      [exact Hab | intros; apply gauss_continuity].
  - apply RiemannInt_P1.
    apply continuity_implies_RiemannInt; [lra | intros; apply gauss_continuity].
Qed.

(** The integral of [gauss] from 0 to [x]. *)
Definition gauss_int (x : R) : R := RiemannInt (gauss_integrable 0 x).

Lemma gauss_int_0 : gauss_int 0 = 0.
Proof. unfold gauss_int. apply RiemannInt_P9. Qed.

(** Monotonicity and constancy from the sign of a derivative on a segment. *)
Lemma deriv_nonneg_le (f f' : R -> R) (a b : R) :
  a <= b ->
  (forall c, a <= c <= b -> derivable_pt_lim f c (f' c)) ->
  (forall c, a <= c <= b -> 0 <= f' c) ->
  f a <= f b.
Proof.
  intros [Hlt | ->] Hd Hs; [| lra].
  destruct (MVT_cor2 f f' a b Hlt Hd) as [c [Hc Hin]].
  assert (0 <= f' c * (b - a)).
  { apply Rmult_le_pos; [apply Hs; lra | lra]. }
  lra.
Qed.

Lemma deriv_null_eq (f f' : R -> R) (a b : R) :
  a <= b ->
  (forall c, a <= c <= b -> derivable_pt_lim f c (f' c)) ->
  (forall c, a <= c <= b -> f' c = 0) ->
  f a = f b.
Proof.
  intros [Hlt | ->] Hd Hs; [| lra].
  destruct (MVT_cor2 f f' a b Hlt Hd) as [c [Hc Hin]].
  rewrite Hs in Hc by lra. lra.
Qed.

Lemma dlim_eq (f : R -> R) (x l l' : R) :
  derivable_pt_lim f x l -> l = l' -> derivable_pt_lim f x l'.
Proof. intros H <-. exact H. Qed.

Lemma gauss_int_derivable_pt_lim (x : R) :
  derivable_pt_lim gauss_int x (gauss x).
Proof.
  assert (h : x - 1 <= x + 1) by lra.
  assert (C0 : forall y, x - 1 <= y <= x + 1 -> continuity_pt gauss y)
    by (intros; apply gauss_continuity).
  apply (derivable_pt_lim_locally_ext
           (fun z => gauss_int (x - 1) + primitive h (FTC_P1 h C0) z)
           gauss_int x (x - 1) (x + 1)).
  - lra.
  - intros z Hz. unfold primitive, gauss_int.
    destruct (Rle_dec (x - 1) z) as [H1 | H1]; [| lra].
    destruct (Rle_dec z (x + 1)) as [H2 | H2]; [| lra].
    apply RiemannInt_P26.
  - apply dlim_eq with (0 + gauss x); [| lra].
    apply (derivable_pt_lim_plus (fun _ => gauss_int (x - 1))
                                 (primitive h (FTC_P1 h C0))).
    + apply (derivable_pt_lim_const (gauss_int (x - 1))).
    + apply RiemannInt_P28. lra.
Qed.

Lemma gauss_int_incr (a b : R) : a <= b -> gauss_int a <= gauss_int b.
Proof.
  intros Hab. apply (deriv_nonneg_le gauss_int gauss); auto.
  - intros; apply gauss_int_derivable_pt_lim.
  - intros; left; apply gauss_pos.
Qed.

Lemma gauss_int_odd (x : R) : gauss_int (- x) = - gauss_int x.
Proof.
  assert (E : forall a b, a <= b ->
            gauss_int a + gauss_int (- a) = gauss_int b + gauss_int (- b)).
  { intros a b Hab.
    apply (deriv_null_eq (fun z => gauss_int z + gauss_int (- z))
                         (fun z => gauss z + - gauss (- z))); auto.
    - intros c _.
      apply (derivable_pt_lim_plus gauss_int (fun z => gauss_int (- z))).
      + apply gauss_int_derivable_pt_lim.
      + apply (derivable_pt_lim_mirr_fwd gauss_int).
        apply dlim_eq with (gauss (- c)); [| lra].
        apply gauss_int_derivable_pt_lim.
    - intros c _. rewrite gauss_even. lra. }
  destruct (Rle_dec 0 x) as [H | H].
  - specialize (E 0 x H). rewrite Ropp_0, gauss_int_0 in E. lra.
  - assert (H' : x <= 0) by lra.
    specialize (E x 0 H'). rewrite Ropp_0, gauss_int_0 in E. lra.
Qed.

Lemma gauss_le_cauchy (x : R) : gauss x <= 2 * / (1 + x ^ 2).
Proof.
  unfold gauss.
  replace (- (x * x) / 2) with (- (x * x / 2)) by lra.
  rewrite exp_Ropp.
  assert (H0 : 0 <= x * x) by nra.
  assert (H1 : 1 + x * x / 2 <= exp (x * x / 2)) by apply exp_ineq1_le.
  assert (H2 : 0 < 1 + x * x / 2) by lra.
  assert (H3 : / exp (x * x / 2) <= / (1 + x * x / 2)).
  { apply Rinv_le_contravar; lra. }
  apply Rle_trans with (1 := H3).
  assert (H4 : 0 < 1 + x ^ 2) by (simpl; nra).
  apply Rmult_le_reg_r with (1 + x * x / 2); [lra |].
  rewrite Rinv_l by lra.
  apply Rmult_le_reg_r with (1 + x ^ 2); [lra |].
  replace (2 * / (1 + x ^ 2) * (1 + x * x / 2) * (1 + x ^ 2))
    with (2 * (1 + x * x / 2) * ((1 + x ^ 2) * / (1 + x ^ 2))) by ring.
  rewrite Rinv_r by lra. simpl. nra.
Qed.

Lemma gauss_int_bounded (x : R) : gauss_int x <= PI.
Proof.
  destruct (Rle_dec x 0) as [H | H].
  - apply Rle_trans with (gauss_int 0).
    + apply gauss_int_incr; exact H.
    + rewrite gauss_int_0. left. apply PI_RGT_0.
  - assert (Hx : 0 <= x) by lra.
    assert (E := deriv_nonneg_le (fun z => 2 * atan z - gauss_int z)
                   (fun z => 2 * / (1 + z ^ 2) - gauss z) 0 x Hx).
    cbv beta in E. rewrite atan_0, gauss_int_0 in E.
    assert (B := atan_bound x).
    enough (0 <= 2 * atan x - gauss_int x) by lra.
    replace 0 with (2 * 0 - 0) at 1 by lra.
    apply E.
    + intros c _.
      apply (derivable_pt_lim_minus (fun z => 2 * atan z) gauss_int).
      * apply (derivable_pt_lim_scal atan 2). apply derivable_pt_lim_atan.
      * apply gauss_int_derivable_pt_lim.
    + intros c _. assert (G := gauss_le_cauchy c). lra.
Qed.


Definition gauss_range (y : R) : Prop := exists x, y = gauss_int x.

Lemma gauss_range_bound : bound gauss_range.
Proof.
  exists PI. intros y [x ->]. apply gauss_int_bounded.
Qed.

Lemma gauss_range_inhabited : exists y, gauss_range y.
Proof. exists (gauss_int 0). exists 0. reflexivity. Qed.

(** Half of the total mass of [gauss]: the integral from 0 to infinity. *)
Definition gauss_half_mass : R :=
  proj1_sig (completeness gauss_range gauss_range_bound gauss_range_inhabited).

Lemma gauss_half_mass_lub : is_lub gauss_range gauss_half_mass.
Proof.
  unfold gauss_half_mass.
  destruct (completeness gauss_range gauss_range_bound gauss_range_inhabited) as [m Hm].
  exact Hm.
Qed.

Lemma gauss_int_le_half_mass (x : R) : gauss_int x <= gauss_half_mass.
Proof.
  destruct gauss_half_mass_lub as [Hub _]. apply Hub. exists x. reflexivity.
Qed.

Lemma gauss_int_ge_half_mass (x : R) : - gauss_half_mass <= gauss_int x.
Proof.
  assert (H := gauss_int_le_half_mass (- x)). rewrite gauss_int_odd in H. lra.
Qed.

Lemma gauss_int_1_pos : 0 < gauss_int 1.
Proof.
  destruct (MVT_cor2 gauss_int gauss 0 1) as [c [Hc _]]; [lra | |].
  - intros; apply gauss_int_derivable_pt_lim.
  - rewrite gauss_int_0 in Hc. assert (G := gauss_pos c). lra.
Qed.

Lemma gauss_half_mass_pos : 0 < gauss_half_mass.
Proof.
  assert (H := gauss_int_le_half_mass 1). assert (P := gauss_int_1_pos). lra.
Qed.

(** The standard normal distribution function: the distribution whose
    density is proportional to [exp (- x^2 / 2)], normalised to mass 1. *)
Definition std_normal_cdf (x : R) : R :=
  (gauss_half_mass + gauss_int x) / (2 * gauss_half_mass).

Definition std_normal_pdf (x : R) : R := gauss x / (2 * gauss_half_mass).

Lemma std_normal_pdf_pos (x : R) : 0 < std_normal_pdf x.
Proof.
  unfold std_normal_pdf. apply Rdiv_lt_0_compat; [apply gauss_pos |].
  assert (P := gauss_half_mass_pos). lra.
Qed.

Lemma std_normal_cdf_derivable_pt_lim (x : R) :
  derivable_pt_lim std_normal_cdf x (std_normal_pdf x).
Proof.
  unfold std_normal_cdf, std_normal_pdf.
  assert (P := gauss_half_mass_pos).
  apply dlim_eq with ((0 + gauss x) * / (2 * gauss_half_mass)); [| unfold Rdiv; ring].
  apply (derivable_pt_lim_ext
           (fun y => / (2 * gauss_half_mass) * (gauss_half_mass + gauss_int y))).
  { intros z. unfold Rdiv. ring. }
  apply dlim_eq with (/ (2 * gauss_half_mass) * (0 + gauss x)); [| ring].
  apply (derivable_pt_lim_scal (fun y => gauss_half_mass + gauss_int y)).
  apply (derivable_pt_lim_plus (fun _ => gauss_half_mass) gauss_int).
  - apply (derivable_pt_lim_const gauss_half_mass).
  - apply gauss_int_derivable_pt_lim.
Qed.

Lemma std_normal_cdf_nonneg (x : R) : 0 <= std_normal_cdf x.
Proof.
  unfold std_normal_cdf. assert (P := gauss_half_mass_pos).
  assert (H := gauss_int_ge_half_mass x).
  apply Rmult_le_pos; [lra |]. left. apply Rinv_0_lt_compat. lra.
Qed.

Lemma std_normal_cdf_symm (x : R) : std_normal_cdf x + std_normal_cdf (- x) = 1.
Proof.
  unfold std_normal_cdf. rewrite gauss_int_odd.
  assert (P := gauss_half_mass_pos). field. lra.
Qed.

Lemma std_normal_cdf_le_1 (x : R) : std_normal_cdf x <= 1.
Proof.
  assert (H := std_normal_cdf_symm x). assert (N := std_normal_cdf_nonneg (- x)). lra.
Qed.

Lemma std_normal_cdf_0 : std_normal_cdf 0 = 1 / 2.
Proof.
  unfold std_normal_cdf. rewrite gauss_int_0.
  assert (P := gauss_half_mass_pos). field. lra.
Qed.

Lemma std_normal_cdf_incr (a b : R) : a <= b -> std_normal_cdf a <= std_normal_cdf b.
Proof.
  intros H. apply (deriv_nonneg_le std_normal_cdf std_normal_pdf); auto.
  - intros; apply std_normal_cdf_derivable_pt_lim.
  - intros; left; apply std_normal_pdf_pos.
Qed.


(** The distribution function comes as close to 1 as one wishes. *)
Lemma std_normal_cdf_sup (eps : R) :
  0 < eps -> exists x, 1 - eps < std_normal_cdf x.
Proof.
  intros He. assert (P := gauss_half_mass_pos).
  destruct (classic (exists x, 1 - eps < std_normal_cdf x)) as [H | H]; [exact H |].
  exfalso.
  destruct gauss_half_mass_lub as [_ Hl].
  assert (U : is_upper_bound gauss_range
                (gauss_half_mass - 2 * gauss_half_mass * eps)).
  { intros y [x ->].
    assert (Hx : std_normal_cdf x <= 1 - eps).
    { apply Rnot_lt_le. intro. apply H. exists x. assumption. }
    unfold std_normal_cdf in Hx.
    apply (Rmult_le_compat_r (2 * gauss_half_mass)) in Hx; [| lra].
    unfold Rdiv in Hx. rewrite Rmult_assoc, Rinv_l in Hx by lra. lra. }
  specialize (Hl _ U). nra.
Qed.

(** It tends to 1 at plus infinity and to 0 at minus infinity. *)
Lemma std_normal_cdf_limit_sup (eps : R) :
  0 < eps -> exists x0, forall x, x0 <= x -> 1 - eps < std_normal_cdf x <= 1.
Proof.
  intros He. destruct (std_normal_cdf_sup eps He) as [x0 H0].
  exists x0. intros x Hx. split; [| apply std_normal_cdf_le_1].
  apply Rlt_le_trans with (std_normal_cdf x0);
    [exact H0 | apply std_normal_cdf_incr; exact Hx].
Qed.

Lemma std_normal_cdf_limit_inf (eps : R) :
  0 < eps -> exists x0, forall x, x <= x0 -> 0 <= std_normal_cdf x < eps.
Proof.
  intros He. destruct (std_normal_cdf_limit_sup eps He) as [x0 H0].
  exists (- x0). intros x Hx. split; [apply std_normal_cdf_nonneg |].
  assert (H := H0 (- x)). assert (S := std_normal_cdf_symm x). lra.
Qed.

(** ** The source over the reals *)

(** The exact-real reading of the numbers: every operation is the
    mathematical one, without rounding, overflow or NaN.  A statement
    proved through this instance is a statement in exact real
    arithmetic; it says nothing about the float64 result of the program
    unless the same equation holds in every arithmetic.  The float64
    reading is [Float64Num] below. *)
#[export] Instance RNum : PyNum R := {|
  of_int := IZR;
  of_float := Q2R;
  add := Rplus;
  sub := Rminus;
  mul := Rmult;
  truediv := Rdiv;
  neg := Ropp;
  np_sqrt := sqrt;
  np_exp := exp;
  np_log := ln;
  norm_cdf := std_normal_cdf
|}.

Lemma Q2R_half : Q2R 0.5 = / 2.
Proof. unfold Q2R. simpl. lra. Qed.

(** [d1] of line 155, over the reals. *)
Definition d1 (S K t r sigma : R) : R :=
  ln (S * exp (r * t) / K) / (sigma * sqrt t) + Q2R 0.5 * sigma * sqrt t.

Lemma CallOption_value_R (S K t r sigma : R) :
  CallOption_value S K t r sigma
  = S * std_normal_cdf (d1 S K t r sigma)
    - K * exp (- r * t) * std_normal_cdf (d1 S K t r sigma - sigma * sqrt t).
Proof. reflexivity. Qed.

Lemma PutOption_value_R (S K t r sigma : R) :
  PutOption_value S K t r sigma
  = - S * std_normal_cdf (- d1 S K t r sigma)
    + K * exp (- r * t) * std_normal_cdf (- (d1 S K t r sigma - sigma * sqrt t)).
Proof. reflexivity. Qed.

Lemma Forward_value_R (S K t r : R) :
  Forward_value S K t r = S - K * exp (- r * t).
Proof. reflexivity. Qed.

(** Put-call-forward parity of the three values. *)
Lemma parity_values (S K t r sigma : R) :
  CallOption_value S K t r sigma - PutOption_value S K t r sigma
  - Forward_value S K t r = 0.
Proof.
  rewrite CallOption_value_R, PutOption_value_R, Forward_value_R.
  assert (H1 := std_normal_cdf_symm (d1 S K t r sigma)).
  assert (H2 := std_normal_cdf_symm (d1 S K t r sigma - sigma * sqrt t)).
  set (a := std_normal_cdf (d1 S K t r sigma)) in *.
  set (a' := std_normal_cdf (- d1 S K t r sigma)) in *.
  set (b := std_normal_cdf (d1 S K t r sigma - sigma * sqrt t)) in *.
  set (b' := std_normal_cdf (- (d1 S K t r sigma - sigma * sqrt t))) in *.
  replace a' with (1 - a) by lra. replace b' with (1 - b) by lra. ring.
Qed.

(** The identity behind the Greeks: [S * gauss d1 = K * exp (-r t) * gauss d2]. *)
Lemma gauss_shift (d v : R) :
  gauss (d - v) = gauss d * exp (d * v - v * v / 2).
Proof.
  unfold gauss. rewrite <- exp_plus. f_equal. field.
Qed.

Lemma spot_density_identity (S K t r sigma : R) :
  0 < S -> 0 < K -> 0 < sigma * sqrt t ->
  S * gauss (d1 S K t r sigma)
  = K * exp (- r * t) * gauss (d1 S K t r sigma - sigma * sqrt t).
Proof.
  intros HS HK Hv. rewrite gauss_shift.
  set (v := sigma * sqrt t) in *.
  assert (Hpos : 0 < S * exp (r * t) / K).
  { apply Rdiv_lt_0_compat; [| exact HK].
    apply Rmult_lt_0_compat; [exact HS | apply exp_pos]. }
  assert (E : d1 S K t r sigma * v - v * v / 2 = ln (S * exp (r * t) / K)).
  { unfold d1. rewrite Q2R_half. fold v.
    replace (/ 2 * sigma * sqrt t) with (/ 2 * v) by (unfold v; ring).
    field. lra. }
  rewrite E, exp_ln by exact Hpos.
  replace (- r * t) with (- (r * t)) by ring. rewrite exp_Ropp.
  assert (He := exp_pos (r * t)).
  field. split; lra.
Qed.

(** The derivative of [u * N(d) - D * N(d - v)] along a parameter, when
    [u * gauss d = D * gauss (d - v)] at the point. *)
Lemma black_scholes_derivative (u d v : R -> R) (D x u' d' v' : R) :
  derivable_pt_lim u x u' ->
  derivable_pt_lim d x d' ->
  derivable_pt_lim v x v' ->
  u x * gauss (d x) = D * gauss (d x - v x) ->
  derivable_pt_lim
    (fun y => u y * std_normal_cdf (d y) - D * std_normal_cdf (d y - v y)) x
    (u' * std_normal_cdf (d x) + D * std_normal_pdf (d x - v x) * v').
Proof.
  intros Hu Hd Hv Hid.
  assert (P := gauss_half_mass_pos).
  apply dlim_eq with
    ((u' * std_normal_cdf (d x) + u x * (std_normal_pdf (d x) * d'))
     - D * (std_normal_pdf (d x - v x) * (d' - v'))).
  - apply (derivable_pt_lim_minus
             (fun y => u y * std_normal_cdf (d y))
             (fun y => D * std_normal_cdf (d y - v y))).
    + apply (derivable_pt_lim_mult u (fun y => std_normal_cdf (d y))).
      * exact Hu.
      * apply (derivable_pt_lim_comp d std_normal_cdf); [exact Hd |].
        apply std_normal_cdf_derivable_pt_lim.
    + apply (derivable_pt_lim_scal (fun y => std_normal_cdf (d y - v y)) D).
      apply (derivable_pt_lim_comp (fun y => d y - v y) std_normal_cdf).
      * apply (derivable_pt_lim_minus d v); assumption.
      * apply std_normal_cdf_derivable_pt_lim.
  - unfold std_normal_pdf.
    replace (u x * (gauss (d x) / (2 * gauss_half_mass) * d'))
      with (u x * gauss (d x) * d' / (2 * gauss_half_mass)) by (field; lra).
    rewrite Hid. field. lra.
Qed.


Lemma vol_sqrt_pos (sigma t : R) : 0 < sigma -> 0 < t -> 0 < sigma * sqrt t.
Proof.
  intros Hs Ht. apply Rmult_lt_0_compat; [exact Hs | apply sqrt_lt_R0; exact Ht].
Qed.

Lemma d1_derivable_spot (K t r sigma c : R) :
  0 < c -> 0 < K ->
  derivable_pt (fun y => d1 y K t r sigma) c.
Proof.
  intros Hc HK. unfold d1.
  reg.
  exists (/ (c * exp (r * t) * / K)). apply derivable_pt_lim_ln.
  apply Rmult_lt_0_compat; [| apply Rinv_0_lt_compat; exact HK].
  apply Rmult_lt_0_compat; [exact Hc | apply exp_pos].
Qed.

Lemma d1_derivable_vol (S K t r c : R) :
  0 < c -> 0 < t ->
  derivable_pt (fun y => d1 S K t r y) c.
Proof.
  intros Hc Ht. unfold d1.
  reg.
  assert (H := vol_sqrt_pos c t Hc Ht). lra.
Qed.

(** Delta: the derivative of the call value in the spot is [N(d1)]. *)
Lemma CallOption_value_delta (K t r sigma c : R) :
  0 < c -> 0 < K -> 0 < t -> 0 < sigma ->
  derivable_pt_lim (fun S => CallOption_value S K t r sigma) c
    (std_normal_cdf (d1 c K t r sigma)).
Proof.
  intros Hc HK Ht Hs.
  destruct (d1_derivable_spot K t r sigma c Hc HK) as [d' Hd'].
  apply dlim_eq with
    (1 * std_normal_cdf (d1 c K t r sigma)
     + K * exp (- r * t) * std_normal_pdf (d1 c K t r sigma - sigma * sqrt t) * 0);
    [| ring].
  apply (black_scholes_derivative
           (fun y => y) (fun y => d1 y K t r sigma) (fun _ => sigma * sqrt t)
           (K * exp (- r * t)) c 1 d' 0).
  - apply derivable_pt_lim_id.
  - exact Hd'.
  - apply (derivable_pt_lim_const (sigma * sqrt t)).
  - apply spot_density_identity; auto using vol_sqrt_pos.
Qed.

(** Vega: the derivative of the call value in the volatility. *)
Lemma CallOption_value_vega (S K t r c : R) :
  0 < S -> 0 < K -> 0 < t -> 0 < c ->
  derivable_pt_lim (fun sigma => CallOption_value S K t r sigma) c
    (K * exp (- r * t) * std_normal_pdf (d1 S K t r c - c * sqrt t) * sqrt t).
Proof.
  intros HS HK Ht Hc.
  destruct (d1_derivable_vol S K t r c Hc Ht) as [d' Hd'].
  apply dlim_eq with
    (0 * std_normal_cdf (d1 S K t r c)
     + K * exp (- r * t) * std_normal_pdf (d1 S K t r c - c * sqrt t) * sqrt t);
    [| ring].
  apply (black_scholes_derivative
           (fun _ => S) (fun y => d1 S K t r y) (fun y => y * sqrt t)
           (K * exp (- r * t)) c 0 d' (sqrt t)).
  - apply (derivable_pt_lim_const S).
  - exact Hd'.
  - apply dlim_eq with (1 * sqrt t + c * 0); [| ring].
    apply (derivable_pt_lim_mult (fun y => y) (fun _ => sqrt t)).
    + apply derivable_pt_lim_id.
    + apply (derivable_pt_lim_const (sqrt t)).
  - apply spot_density_identity; auto using vol_sqrt_pos.
Qed.

Lemma CallOption_value_incr_spot (K t r sigma S1 S2 : R) :
  0 < K -> 0 < t -> 0 < sigma -> 0 < S1 -> S1 <= S2 ->
  CallOption_value S1 K t r sigma <= CallOption_value S2 K t r sigma.
Proof.
  intros HK Ht Hs H1 H12.
  apply (deriv_nonneg_le (fun S => CallOption_value S K t r sigma)
           (fun c => std_normal_cdf (d1 c K t r sigma))); auto.
  - intros c Hc. apply CallOption_value_delta; auto; lra.
  - intros c _. apply std_normal_cdf_nonneg.
Qed.

Lemma CallOption_value_incr_vol (S K t r sigma1 sigma2 : R) :
  0 < S -> 0 < K -> 0 < t -> 0 < sigma1 -> sigma1 <= sigma2 ->
  CallOption_value S K t r sigma1 <= CallOption_value S K t r sigma2.
Proof.
  intros HS HK Ht H1 H12.
  apply (deriv_nonneg_le (fun sigma => CallOption_value S K t r sigma)
           (fun c => K * exp (- r * t)
                     * std_normal_pdf (d1 S K t r c - c * sqrt t) * sqrt t)); auto.
  - intros c Hc. apply CallOption_value_vega; auto; lra.
  - intros c _.
    apply Rmult_le_pos; [| apply sqrt_pos].
    apply Rmult_le_pos; [| left; apply std_normal_pdf_pos].
    apply Rmult_le_pos; [lra | left; apply exp_pos].
Qed.

Lemma PutOption_value_parity (S K t r sigma : R) :
  PutOption_value S K t r sigma
  = CallOption_value S K t r sigma - Forward_value S K t r.
Proof. assert (H := parity_values S K t r sigma). lra. Qed.



(** * Float64 arithmetic

    The numbers of the program are IEEE 754 binary64: Python's [float]
    and numpy's [float64], rounding to nearest, ties to even.  The
    operators [+], [-], [*], [/] and [np.sqrt] are the correctly rounded
    operations of the standard, here those of the primitive floats.
    Every division of the source (line 155) has a numpy [float64]
    operand, so a zero divisor gives an infinity or NaN with a runtime
    warning; nothing is raised.

    [np.exp], [np.log] and [norm.cdf] are not correctly rounded: their
    result depends on the math library except at the special values,
    which C99 Annex F fixes for [exp] and [log] and which
    [scipy.stats.norm.cdf] sets for NaN and the infinities.  A number is
    therefore an [option]: [None] is a float64 this development does not
    determine, and whatever is computed from it is not determined
    either.  [Some x] is the float64 the program computes. *)

Definition float64 : Type := option PrimFloat.float.

Definition f64_unary (f : PrimFloat.float -> PrimFloat.float)
    (x : float64) : float64 :=
  match x with
  | Some a => Some (f a)
  | None => None
  end.

Definition f64_binary
    (f : PrimFloat.float -> PrimFloat.float -> PrimFloat.float)
    (x y : float64) : float64 :=
  match x, y with
  | Some a, Some b => Some (f a b)
  | _, _ => None
  end.

(** A Python [int] used as a float: exact up to [2^53] in absolute
    value, not determined here above.  Python converts an [int] operand
    when the other operand of an operator is a float; here an integer
    argument is a float from the start.  The operations of lines
    154-159, 175-180 and 195 come out the same: an exact product of two
    such integers converts to the float their rounded product gives, and
    the sign of a zero [-r * t] does not change [np.exp] of it. *)
Definition f64_of_int (n : Z) : float64 :=
  if (Z.abs n <=? 2 ^ 53)%Z then
    let m := PrimFloat.of_uint63 (Uint63.of_Z (Z.abs n)) in
    Some (if (n <? 0)%Z then PrimFloat.opp m else m)
  else None.

(** A decimal literal is the float64 nearest to the rational it denotes:
    the correctly rounded quotient of its numerator and denominator when
    both are exact floats. *)
Definition f64_of_float (q : Q) : float64 :=
  f64_binary PrimFloat.div (f64_of_int (Qnum q)) (f64_of_int (Zpos (Qden q))).

(** [np.exp]: NaN at NaN, 1 at [+0] and [-0], [+inf] at [+inf], [+0] at
    [-inf]. *)
Definition f64_exp (x : float64) : float64 :=
  match x with
  | Some a =>
      if PrimFloat.is_nan a then Some PrimFloat.nan
      else if PrimFloat.is_zero a then Some PrimFloat.one
      else if PrimFloat.eqb a PrimFloat.infinity then Some PrimFloat.infinity
      else if PrimFloat.eqb a PrimFloat.neg_infinity then Some PrimFloat.zero
      else None
  | None => None
  end.

(** [np.log]: NaN at NaN, [-inf] at [+0] and [-0], NaN at a negative
    argument, [+0] at 1, [+inf] at [+inf]. *)
Definition f64_log (x : float64) : float64 :=
  match x with
  | Some a =>
      if PrimFloat.is_nan a then Some PrimFloat.nan
      else if PrimFloat.is_zero a then Some PrimFloat.neg_infinity
      else if PrimFloat.ltb a PrimFloat.zero then Some PrimFloat.nan
      else if PrimFloat.eqb a PrimFloat.one then Some PrimFloat.zero
      else if PrimFloat.eqb a PrimFloat.infinity then Some PrimFloat.infinity
      else None
  | None => None
  end.

(** [norm.cdf]: NaN at NaN, 1 at [+inf], 0 at [-inf]. *)
Definition f64_norm_cdf (x : float64) : float64 :=
  match x with
  | Some a =>
      if PrimFloat.is_nan a then Some PrimFloat.nan
      else if PrimFloat.eqb a PrimFloat.infinity then Some PrimFloat.one
      else if PrimFloat.eqb a PrimFloat.neg_infinity then Some PrimFloat.zero
      else None
  | None => None
  end.

Definition Float64Num : PyNum float64 := {|
  of_int := f64_of_int;
  of_float := f64_of_float;
  add := f64_binary PrimFloat.add;
  sub := f64_binary PrimFloat.sub;
  mul := f64_binary PrimFloat.mul;
  truediv := f64_binary PrimFloat.div;
  neg := f64_unary PrimFloat.opp;
  np_sqrt := f64_unary PrimFloat.sqrt;
  np_exp := f64_exp;
  np_log := f64_log;
  norm_cdf := f64_norm_cdf
|}.


Definition f64_le (x y : float64) : option bool :=
  match x, y with
  | Some a, Some b => Some (PrimFloat.leb a b)
  | _, _ => None
  end.

(** [abs(x) <= tol]: [x] is 0 within the tolerance [tol]. *)
Definition f64_within (tol x : float64) : option bool :=
  f64_le (f64_unary PrimFloat.abs x) tol.

(** The float [2.0 ** e]. *)
Definition f64_pow2 (e : Z) : float64 :=
  Some (FloatOps.Z.ldexp PrimFloat.one e).

Lemma f64_of_float_half : f64_of_float 0.5 = f64_pow2 (-1).
Proof. reflexivity. Qed.

Lemma f64_of_float_spot : f64_of_float 100 = f64_of_int 100.
Proof. reflexivity. Qed.

(** At rate 0 the forward of the script is worth exactly 0 in float64. *)
Lemma Forward_value_float64_zero_rate :
  Forward_value (num := Float64Num) (f64_of_float 100) (f64_of_int 100)
    (f64_of_int 1) (f64_of_int 0)
  = f64_of_int 0.
Proof. reflexivity. Qed.

(** NaN is 0 within no tolerance. *)
Lemma nan_within_no_tolerance (tol : PrimFloat.float) :
  f64_within (Some tol) (Some PrimFloat.nan) = Some false.
Proof.
  unfold f64_within, f64_le, f64_unary. f_equal.
  rewrite FloatAxioms.leb_spec. reflexivity.
Qed.

(** * The specification, claim by claim *)

(** ** The objects of the script over the reals (lines 198-206) *)

Definition s1 : EquityObj :=
  Equity_init TradableEquity ".SPX" "USD" "US" "North America".

Definition market : heap R := {| equities := [s1]; options := [] |}.


Definition script_heap : heap R :=
  {| equities := [s1];
     options :=
       [ Option_init CallOption 0%nat (of_int 100) (of_float 0.2) (of_float 0.1)
           (of_int 1) "call";
         Option_init PutOption 0%nat (of_int 100) (of_float 0.2) (of_float 0.1)
           (of_int 1) "put";
         Option_init Forward 0%nat (of_int 100) (of_int 0) (of_float 0.1)
           (of_int 1) "forward" ] |}.

Lemma script_heap_built :
  snd ((s <- TradableEquity_new ".SPX" "USD" "US" "North America" ;;
        c <- CallOption_new s (of_int 100) (of_float 0.2) (of_float 0.1) (of_int 1) ;;
        p <- PutOption_new s (of_int 100) (of_float 0.2) (of_float 0.1) (of_int 1) ;;
        Forward_new s (of_int 100) (of_float 0.1) (of_int 1)) empty_heap)
  = script_heap.
Proof. reflexivity. Qed.

(** What the script prints, in any arithmetic. *)
Lemma main_prints (A : Type) (num : PyNum A) (fmt : PyFormat A) :
  fst (main empty_heap)
  = Returned
      [ "Equity: .SPX (USD)";
        "call on .SPX, with strike " ++ format (of_int 100)
          ++ ", interest rate " ++ format (of_float 0.1)
          ++ ", expiring in " ++ format (of_int 1)
          ++ ", volatility = " ++ format (of_float 0.2);
        "put on .SPX, with strike " ++ format (of_int 100)
          ++ ", interest rate " ++ format (of_float 0.1)
          ++ ", expiring in " ++ format (of_int 1)
          ++ ", volatility = " ++ format (of_float 0.2);
        "forward on .SPX, with strike " ++ format (of_int 100)
          ++ ", interest rate " ++ format (of_float 0.1)
          ++ ", expiring in " ++ format (of_int 1)
          ++ ", volatility = " ++ format (of_int 0);
        "Checking the put call parity:";
        "c-p-f = "
          ++ format
               (CallOption_value (of_float 100) (of_int 100) (of_int 1)
                  (of_float 0.1) (of_float 0.2)
                - PutOption_value (of_float 100) (of_int 100) (of_int 1)
                    (of_float 0.1) (of_float 0.2)
                - Forward_value (of_float 100) (of_int 100) (of_int 1)
                    (of_float 0.1))%py ]%string.
Proof. reflexivity. Qed.

(** Over the reals, the residual the script prints is 0. *)
Lemma main_prints_zero (fmt : PyFormat R) :
  exists lines,
    fst (main empty_heap) = Returned lines
    /\ nth 5 lines "" = ("c-p-f = " ++ format 0)%string.
Proof.
  eexists. split; [apply main_prints |].
  cbn [nth]. do 2 f_equal. apply parity_values.
Qed.

Lemma new_equity_then (A : Type) (num : PyNum A) (X : Type)
    (k : eref -> M A X) (h : heap A) (n d c rg : string) :
  (s <- TradableEquity_new n d c rg ;; k s) h
  = k (List.length (equities h))
      {| equities := equities h ++ [Equity_init TradableEquity n d c rg];
         options := options h |}.
Proof. reflexivity. Qed.





(** C2: for a [CallOption] whose underlyer's spot is [S], with strike [K],
    volatility [sigma], rate [r] and time to expiry [t], [price()] returns
    [S * N(d1) - K * exp(-r*t) * N(d2)] with [sqrt_t = sqrt(t)],
    [d1 = ln(S * exp(r*t) / K) / (sigma * sqrt_t) + 0.5 * sigma * sqrt_t]
    and [d2 = d1 - sigma * sqrt_t], operation for operation: the equation
    holds in every arithmetic, and so for [sigma > 0], [t > 0], [K > 0],
    [S > 0] in float64. *)
Theorem CallOption_price_formula (A : Type) (num : PyNum A)
    (h : heap A) (self : oref) (o : OptionObj A) (S : A) :
  nth_error (options h) self = Some o ->
  o_class o = CallOption ->
  spot_is h (_underlyer o) S ->
  price self h
  = (Returned
       (let K := _strike o in
        let sigma := _volatility o in
        let r := _interest_rate o in
        let t := _time_to_expiry o in
        let sqrt_t := np_sqrt t in
        let d1 := np_log (S * np_exp (r * t) / K) / (sigma * sqrt_t)
                  + of_float 0.5 * sigma * sqrt_t in
        let d2 := d1 - sigma * sqrt_t in
        S * norm_cdf d1 - K * np_exp (- r * t) * norm_cdf d2)%py, h).
Proof.
  intros Ho Hc HS. rewrite (price_eq h self o S Ho HS), Hc. reflexivity.
Qed.

Lemma CallOption_price_formula_witness :
  price 0%nat script_heap
  = (Returned
       (CallOption_value (of_float 100) (of_int 100) (of_int 1) (of_float 0.1)
          (of_float 0.2)), script_heap).
Proof.
  exact (CallOption_price_formula R RNum script_heap 0%nat _ (of_float 100)
           eq_refl eq_refl eq_refl).
Defined.

(** C3: for a [PutOption] whose underlyer's spot is [S], [price()] returns
    [-S * N(-d1) + K * exp(-r*t) * N(-d2)], with [d1] and [d2] computed
    as for the call ([d2 = d1 - sigma * sqrt_t]), in every arithmetic. *)
Theorem PutOption_price_formula (A : Type) (num : PyNum A)
    (h : heap A) (self : oref) (o : OptionObj A) (S : A) :
  nth_error (options h) self = Some o ->
  o_class o = PutOption ->
  spot_is h (_underlyer o) S ->
  price self h
  = (Returned
       (let K := _strike o in
        let sigma := _volatility o in
        let r := _interest_rate o in
        let t := _time_to_expiry o in
        let sqrt_t := np_sqrt t in
        let d1 := np_log (S * np_exp (r * t) / K) / (sigma * sqrt_t)
                  + of_float 0.5 * sigma * sqrt_t in
        let d2 := d1 - sigma * sqrt_t in
        - S * norm_cdf (- d1) + K * np_exp (- r * t) * norm_cdf (- d2))%py, h).
Proof.
  intros Ho Hc HS. rewrite (price_eq h self o S Ho HS), Hc. reflexivity.
Qed.

Lemma PutOption_price_formula_witness :
  price 1%nat script_heap
  = (Returned
       (PutOption_value (of_float 100) (of_int 100) (of_int 1) (of_float 0.1)
          (of_float 0.2)), script_heap).
Proof.
  exact (PutOption_price_formula R RNum script_heap 1%nat _ (of_float 100)
           eq_refl eq_refl eq_refl).
Defined.

(** C4: a [Forward] built on an underlyer whose spot is [S], with strike
    [K], rate [r] and time to expiry [t], is built with volatility 0
    ([get_volatility()] returns [0]) and its [price()] returns
    [S - K * exp(-r*t)], in every arithmetic; over the reals, at [t = 0]
    the price is [S - K]. *)
Theorem Forward_price_formula :
  (forall (A : Type) (num : PyNum A) (h : heap A) (underlyer : eref)
          (S K r t : A),
      spot_is h underlyer S ->
      exists f h',
        Forward_new underlyer K r t h = (Returned f, h')
        /\ price f h' = (Returned (S - K * np_exp (- r * t))%py, h')
        /\ Option_get_volatility f h' = (Returned (of_int 0), h'))
  /\ (forall (h : heap R) (underlyer : eref) (S K r : R),
      spot_is h underlyer S ->
      exists f h',
        Forward_new underlyer K r 0 h = (Returned f, h')
        /\ price f h' = (Returned (S - K), h')).
Proof.
  split.
  - intros A num h underlyer S K r t HS.
    destruct (price_alloc_option h
                (Option_init Forward underlyer K (of_int 0) r t "forward") S HS)
      as (h' & Ha & _ & Hn & _ & Hp).
    exists (List.length (options h)), h'. repeat split.
    + exact Ha.
    + exact Hp.
    + unfold Option_get_volatility, bind, load_option. rewrite Hn. reflexivity.
  - intros h underlyer S K r HS.
    destruct (price_alloc_option h
                (Option_init Forward underlyer K (of_int 0) r 0 "forward") S HS)
      as (h' & Ha & _ & _ & _ & Hp).
    exists (List.length (options h)), h'. split; [exact Ha |].
    rewrite Hp. cbn [o_class Option_init _strike _time_to_expiry _interest_rate].
    rewrite Forward_value_R. do 2 f_equal. rewrite Rmult_0_r, exp_0. ring.
Qed.

Lemma Forward_price_formula_witness :
  exists f h',
    Forward_new 0%nat (of_int 100) (of_float 0.1) (of_int 1) market
    = (Returned f, h')
    /\ price f h'
       = (Returned (of_float 100 - of_int 100
                    * np_exp (- of_float 0.1 * of_int 1))%py, h')
    /\ Option_get_volatility f h' = (Returned (of_int 0), h').
Proof.
  apply (proj1 Forward_price_formula R RNum market 0%nat (of_float 100)).
  reflexivity.
Defined.

(** The program [s = TradableEquity(...); o = cls(s, K, sigma, r, T)]
    followed by a call on [o]. *)
Lemma new_option_then (A : Type) (num : PyNum A) (X : Type)
    (k : oref -> M A X) (h : heap A) (o : OptionObj A) :
  (c <- alloc_option o ;; k c) h
  = k (List.length (options h))
      {| equities := equities h; options := options h ++ [o] |}.
Proof. reflexivity. Qed.




(** C6, as the code has it: [get_underlyer_spot()] calls [spot()] on the
    underlyer, which no equity has, and raises [AttributeError];
    [get_spot()] on the same underlyer returns [100.0]. *)
Theorem get_underlyer_spot_raises (A : Type) (num : PyNum A)
    (h : heap A) (n d c rg : string) (K sigma r T : A) :
  fst ((s <- TradableEquity_new n d c rg ;;
        o <- CallOption_new s K sigma r T ;;
        Option_get_underlyer_spot o) h)
  = Raised (AttributeError "TradableEquity" "spot")
  /\ fst ((s <- TradableEquity_new n d c rg ;;
           o <- CallOption_new s K sigma r T ;;
           u <- Option_get_underlyer o ;;
           equity_call u "get_spot") h)
     = Returned (VNum (of_float 100)).
Proof.
  unfold CallOption_new.
  rewrite !(new_equity_then A num), !(new_option_then A num).
  unfold Option_get_underlyer_spot, Option_get_underlyer, bind, load_option.
  simpl options. rewrite !nth_error_snoc. cbv beta iota. unfold ret.
  cbv beta iota. cbn [_underlyer Option_init equities].
  rewrite equity_call_spot, equity_call_get_spot. simpl equities.
  rewrite nth_error_snoc. split; reflexivity.
Qed.

(** C7: whatever strings a [TradableEquity] is built with, [get_spot()]
    on it returns the constant [100.0], also after any sequence of
    operations on equities and options; over the reals that constant is
    non-negative. *)
Theorem TradableEquity_spot_is_constant :
  (forall (A : Type) (num : PyNum A) (fmt : PyFormat A) (h : heap A)
          (n d c rg : string) (ops : list (operation A)),
      exists e h1,
        TradableEquity_new n d c rg h = (Returned e, h1)
        /\ equity_call e "get_spot" (run_all ops h1)
           = (Returned (VNum (of_float 100)), run_all ops h1))
  /\ 0 <= of_float (A := R) 100.
Proof.
  split.
  - intros A num fmt h n d c rg ops.
    exists (List.length (equities h)),
           {| equities := equities h ++ [Equity_init TradableEquity n d c rg];
              options := options h |}.
    split; [reflexivity |].
    rewrite equity_call_get_spot.
    erewrite extends_equity; [reflexivity | apply run_all_extends |].
    apply nth_error_snoc.
  - simpl. unfold Q2R. simpl. lra.
Qed.

(** C8: [price()] on a call, a put or a forward leaves the heap, and so
    every field of the option and of its underlyer, as it was, and a
    second call returns what the first returned. *)
Theorem price_is_pure (A : Type) (num : PyNum A) (h : heap A) (self : oref) :
  snd (price self h) = h
  /\ price self (snd (price self h)) = price self h.
Proof.
  assert (H : snd (price self h) = h) by apply read_only_price.
  split; [exact H | rewrite H; reflexivity].
Qed.








(** Two calls and two puts on the equity of the script, with strike 100,
    rate 0.1 and expiry 1, at the volatilities 1/5 and 1/4. *)
Definition two_volatilities : heap R :=
  {| equities := [s1];
     options :=
       [ Option_init CallOption 0%nat 100 (/ 5) (/ 10) 1 "call";
         Option_init CallOption 0%nat 100 (/ 4) (/ 10) 1 "call";
         Option_init PutOption 0%nat 100 (/ 5) (/ 10) 1 "put";
         Option_init PutOption 0%nat 100 (/ 4) (/ 10) 1 "put" ] |}.

Lemma two_volatilities_built :
  snd ((s <- TradableEquity_new ".SPX" "USD" "US" "North America" ;;
        _ <- CallOption_new s 100 (/ 5) (/ 10) 1 ;;
        _ <- CallOption_new s 100 (/ 4) (/ 10) 1 ;;
        _ <- PutOption_new s 100 (/ 5) (/ 10) 1 ;;
        PutOption_new s 100 (/ 4) (/ 10) 1) empty_heap)
  = two_volatilities.
Proof. reflexivity. Qed.



(** C10: the [country] and [region] an equity is built with are not
    observable.  Two sequences of operations that differ at most in the
    [country] and [region] passed to [TradableEquity], run in heaps
    whose equities differ at most in [_country] and [_region], return
    and raise the same, operation by operation: every method of an
    equity and of an option by its name, [price()] included. *)
Theorem country_and_region_are_not_observable (A : Type) (num : PyNum A)
    (fmt : PyFormat A) (ops1 ops2 : list (operation A)) (h1 h2 : heap A) :
  heap_low_eq h1 h2 ->
  Forall2 op_low_eq ops1 ops2 ->
  trace ops1 h1 = trace ops2 h2.
Proof.
  intros H Hops. exact (trace_low ops1 ops2 Hops h1 h2 H).
Qed.

Definition plain_format : PyFormat R := {| format := fun _ => "<float>" |}.

Definition observations (country region : string) : list (operation R) :=
  [ NewTradableEquity ".SPX" "USD" country region;
    NewCallOption 0%nat (of_int 100) (of_float 0.2) (of_float 0.1) (of_int 1);
    NewPutOption 0%nat (of_int 100) (of_float 0.2) (of_float 0.1) (of_int 1);
    NewForward 0%nat (of_int 100) (of_float 0.1) (of_int 1);
    OnEquity 0%nat "get_name";
    OnEquity 0%nat "get_denominated";
    OnEquity 0%nat "get_spot";
    OnEquity 0%nat "__repr__";
    OnOption 0%nat "__repr__";
    OnOption 0%nat "price";
    OnOption 1%nat "price";
    OnOption 2%nat "price" ].

Lemma country_and_region_are_not_observable_witness :
  trace (fmt := plain_format) (observations "US" "North America") empty_heap
  = trace (fmt := plain_format) (observations "FR" "Europe") empty_heap.
Proof.
  apply (country_and_region_are_not_observable R RNum plain_format).
  - split; [apply Forall2_nil | reflexivity].
  - unfold observations.
    repeat (apply Forall2_cons; [simpl; auto |]). apply Forall2_nil.
Defined.

(** * Further properties of the code *)

(** ** Construction and the accessors *)

(** The six accessors of [Option] (lines 63-104, [get_underlyer_spot]
    apart) return these values on [o] in [h]. *)
Definition accessors_return {A : Type} {num : PyNum A} (h : heap A) (o : oref)
    (S : eref) (K sigma r T : A) (type : string) : Prop :=
  Option_get_underlyer o h = (Returned S, h)
  /\ Option_get_strike o h = (Returned K, h)
  /\ Option_get_volatility o h = (Returned sigma, h)
  /\ Option_get_interest_rate o h = (Returned r, h)
  /\ Option_get_time_to_expiry o h = (Returned T, h)
  /\ Option_get_option_type o h = (Returned type, h).

Lemma accessors_of_option (A : Type) (num : PyNum A) (h : heap A) (o : oref)
    (obj : OptionObj A) :
  nth_error (options h) o = Some obj ->
  accessors_return h o (_underlyer obj) (_strike obj) (_volatility obj)
    (_interest_rate obj) (_time_to_expiry obj) (_option_type obj).
Proof.
  intros H.
  unfold accessors_return, Option_get_underlyer, Option_get_strike,
    Option_get_volatility, Option_get_interest_rate,
    Option_get_time_to_expiry, Option_get_option_type, bind, load_option.
  rewrite H. repeat split.
Qed.

Lemma accessors_after_alloc (A : Type) (num : PyNum A) (fmt : PyFormat A)
    (h : heap A) (obj : OptionObj A) (ops : list (operation A)) :
  exists o h',
    alloc_option obj h = (Returned o, h')
    /\ accessors_return (run_all ops h') o (_underlyer obj) (_strike obj)
         (_volatility obj) (_interest_rate obj) (_time_to_expiry obj)
         (_option_type obj).
Proof.
  exists (List.length (options h)),
         {| equities := equities h; options := options h ++ [obj] |}.
  split; [reflexivity |].
  apply accessors_of_option.
  eapply extends_option; [apply run_all_extends | apply nth_error_snoc].
Qed.

(** X1: an instrument built by [CallOption], [PutOption] or [Forward]
    gives back, through its accessors, the arguments it was built with,
    the type tag of its class (["call"], ["put"], ["forward"]) and, for a
    forward, the volatility 0; and it keeps doing so after any sequence
    of operations. *)
Theorem accessors_return_constructor_arguments (A : Type) (num : PyNum A)
    (fmt : PyFormat A) (h : heap A) (S : eref) (K sigma r T : A)
    (ops : list (operation A)) :
  (exists o h',
      CallOption_new S K sigma r T h = (Returned o, h')
      /\ accessors_return (run_all ops h') o S K sigma r T "call")
  /\ (exists o h',
        PutOption_new S K sigma r T h = (Returned o, h')
        /\ accessors_return (run_all ops h') o S K sigma r T "put")
  /\ (exists o h',
        Forward_new S K r T h = (Returned o, h')
        /\ accessors_return (run_all ops h') o S K (of_int 0) r T "forward").
Proof.
  repeat split.
  - exact (accessors_after_alloc A num fmt h
             (Option_init CallOption S K sigma r T "call") ops).
  - exact (accessors_after_alloc A num fmt h
             (Option_init PutOption S K sigma r T "put") ops).
  - exact (accessors_after_alloc A num fmt h
             (Option_init Forward S K (of_int 0) r T "forward") ops).
Qed.

Lemma equity_methods_of_object (A : Type) (num : PyNum A) (h : heap A)
    (e : eref) (obj : EquityObj) :
  nth_error (equities h) e = Some obj ->
  Equity_get_name e h = (Returned (_market_name obj), h)
  /\ Equity_get_denominated e h = (Returned (_denominated obj), h)
  /\ Equity_repr e h
     = (Returned ("Equity: " ++ _market_name obj ++ " ("
                  ++ _denominated obj ++ ")")%string, h)
  /\ Equity_str e h = Equity_repr e h.
Proof.
  intros H.
  unfold Equity_str, Equity_repr, Equity_get_name, Equity_get_denominated,
    bind, load_equity.
  rewrite H. repeat split.
  cbv beta iota. unfold ret at 1. cbv beta iota. rewrite H. reflexivity.
Qed.

(** X2: a [TradableEquity] built with a market name and a denomination
    gives them back through [get_name()] and [get_denominated()], and
    [repr()] and [str()] of it are both ['Equity: <name> (<denomination>)'],
    also after any sequence of operations; the country and the region do
    not appear. *)
Theorem equity_describes_itself (A : Type) (num : PyNum A) (fmt : PyFormat A)
    (h : heap A) (n d c rg : string) (ops : list (operation A)) :
  exists e h',
    TradableEquity_new n d c rg h = (Returned e, h')
    /\ Equity_get_name e (run_all ops h') = (Returned n, run_all ops h')
    /\ Equity_get_denominated e (run_all ops h') = (Returned d, run_all ops h')
    /\ Equity_repr e (run_all ops h')
       = (Returned ("Equity: " ++ n ++ " (" ++ d ++ ")")%string,
          run_all ops h')
    /\ Equity_str e (run_all ops h') = Equity_repr e (run_all ops h').
Proof.
  exists (List.length (equities h)),
         {| equities := equities h ++ [Equity_init TradableEquity n d c rg];
            options := options h |}.
  split; [reflexivity |].
  apply (equity_methods_of_object A num _ _ (Equity_init TradableEquity n d c rg)).
  eapply extends_equity; [apply run_all_extends | apply nth_error_snoc].
Qed.

(** X3: [repr()] and [str()] of an option whose underlyer is an equity
    are the option's type tag, the market name of the underlyer and the
    formatted strike, rate, expiry and volatility, in the order of the
    format string of lines 107-114. *)
Theorem Option_repr_describes (A : Type) (num : PyNum A) (fmt : PyFormat A)
    (h : heap A) (self : oref) (o : OptionObj A) (e : EquityObj) :
  nth_error (options h) self = Some o ->
  nth_error (equities h) (_underlyer o) = Some e ->
  Option_repr self h
  = (Returned
       (_option_type o ++ " on " ++ _market_name e
        ++ ", with strike " ++ format (_strike o)
        ++ ", interest rate " ++ format (_interest_rate o)
        ++ ", expiring in " ++ format (_time_to_expiry o)
        ++ ", volatility = " ++ format (_volatility o))%string, h)
  /\ Option_str self h = Option_repr self h.
Proof.
  intros Ho He. split; [| reflexivity].
  unfold Option_repr, Option_get_option_type, Option_get_underlyer,
    Option_get_strike, Option_get_interest_rate, Option_get_time_to_expiry,
    Option_get_volatility, bind, load_option, ret.
  repeat (first [rewrite Ho | rewrite equity_call_get_name, He]; cbv beta iota).
  reflexivity.
Qed.

Lemma Option_repr_describes_witness :
  Option_repr (fmt := plain_format) 2%nat script_heap
  = (Returned
       "forward on .SPX, with strike <float>, interest rate <float>, expiring in <float>, volatility = <float>",
     script_heap)
  /\ Option_str (fmt := plain_format) 2%nat script_heap
     = Option_repr (fmt := plain_format) 2%nat script_heap.
Proof.
  exact (Option_repr_describes R RNum plain_format script_heap 2%nat _ s1
           eq_refl eq_refl).
Defined.

(** ** What the methods never do *)

(** X4: no method of an equity or of an option, called by its name,
    changes the heap, whether it returns or raises: the methods create
    no object and assign no attribute. *)
Theorem methods_leave_the_heap_unchanged (A : Type) (num : PyNum A)
    (fmt : PyFormat A) (h : heap A) (target : nat) (name : string) :
  snd (equity_call target name h) = h
  /\ snd (option_call target name h) = h.
Proof.
  split; [apply read_only_equity_call | apply read_only_option_call].
Qed.

(** X5: no sequence of operations, constructors included, modifies or
    removes an object: every equity and every option of the heap is
    found unchanged at its reference afterwards. *)
Theorem objects_are_never_modified (A : Type) (num : PyNum A)
    (fmt : PyFormat A) (ops : list (operation A)) (h : heap A) :
  (forall e obj,
      nth_error (equities h) e = Some obj ->
      nth_error (equities (run_all ops h)) e = Some obj)
  /\ (forall o obj,
        nth_error (options h) o = Some obj ->
        nth_error (options (run_all ops h)) o = Some obj).
Proof.
  assert (X := run_all_extends ops h). split.
  - intros e obj. apply extends_equity. exact X.
  - intros o obj. apply extends_option. exact X.
Qed.

(** X6: [get_underlyer_spot()] (lines 69-74) returns on no instrument:
    on a call, a put or a forward whose underlyer is an equity, called
    directly or by its name, it raises [AttributeError] for the
    attribute [spot] of [TradableEquity]. *)
Theorem get_underlyer_spot_never_returns (A : Type) (num : PyNum A)
    (fmt : PyFormat A) (h : heap A) (self : oref) (o : OptionObj A)
    (e : EquityObj) :
  nth_error (options h) self = Some o ->
  nth_error (equities h) (_underlyer o) = Some e ->
  Option_get_underlyer_spot self h
  = (Raised (AttributeError "TradableEquity" "spot"), h)
  /\ option_call self "get_underlyer_spot" h
     = (Raised (AttributeError "TradableEquity" "spot"), h).
Proof.
  intros Ho He.
  assert (E : Option_get_underlyer_spot self h
              = (Raised (AttributeError "TradableEquity" "spot"), h)).
  { unfold Option_get_underlyer_spot, Option_get_underlyer, bind, load_option,
      ret.
    rewrite Ho. cbv beta iota. rewrite equity_call_spot, He.
    destruct e as [[] n d c rg]. reflexivity. }
  split; [exact E |].
  unfold option_call, bind, load_option. rewrite Ho. cbv beta iota.
  destruct o as [[] u K sigma r T type]; exact E.
Qed.

Lemma get_underlyer_spot_never_returns_witness :
  Option_get_underlyer_spot 1%nat script_heap
  = (Raised (AttributeError "TradableEquity" "spot"), script_heap)
  /\ option_call (fmt := plain_format) 1%nat "get_underlyer_spot" script_heap
     = (Raised (AttributeError "TradableEquity" "spot"), script_heap).
Proof.
  exact (get_underlyer_spot_never_returns R RNum plain_format script_heap
           1%nat _ s1 eq_refl eq_refl).
Defined.

(** ** The script *)

(** X7: run from an empty heap, the script (lines 198-212) raises
    nothing, builds one equity and the three instruments on it, and
    prints six lines: the equity, the call, the put, the forward, the
    header and the parity residual, which over the reals is 0. *)
Theorem script_prints (fmt : PyFormat R) :
  main empty_heap
  = (Returned
       [ "Equity: .SPX (USD)";
         "call on .SPX, with strike " ++ format (of_int 100)
           ++ ", interest rate " ++ format (of_float 0.1)
           ++ ", expiring in " ++ format (of_int 1)
           ++ ", volatility = " ++ format (of_float 0.2);
         "put on .SPX, with strike " ++ format (of_int 100)
           ++ ", interest rate " ++ format (of_float 0.1)
           ++ ", expiring in " ++ format (of_int 1)
           ++ ", volatility = " ++ format (of_float 0.2);
         "forward on .SPX, with strike " ++ format (of_int 100)
           ++ ", interest rate " ++ format (of_float 0.1)
           ++ ", expiring in " ++ format (of_int 1)
           ++ ", volatility = " ++ format (of_int 0);
         "Checking the put call parity:";
         "c-p-f = " ++ format 0 ]%string,
     script_heap).
Proof.
  transitivity (fst (main empty_heap), snd (main (fmt := fmt) empty_heap)).
  - destruct (main empty_heap); reflexivity.
  - assert (P : (CallOption_value (of_float 100) (of_int 100) (of_int 1)
                   (of_float 0.1) (of_float 0.2)
                 - PutOption_value (of_float 100) (of_int 100) (of_int 1)
                     (of_float 0.1) (of_float 0.2)
                 - Forward_value (of_float 100) (of_int 100) (of_int 1)
                     (of_float 0.1))%py = 0)
      by apply parity_values.
    rewrite main_prints, P. reflexivity.
Qed.

(** ** Bounds and symmetries of the values over the reals *)

Lemma deriv_pos_lt (f f' : R -> R) (a b : R) :
  a < b ->
  (forall c, a <= c <= b -> derivable_pt_lim f c (f' c)) ->
  (forall c, a <= c <= b -> 0 < f' c) ->
  f a < f b.
Proof.
  intros Hlt Hd Hs.
  destruct (MVT_cor2 f f' a b Hlt Hd) as [c [Hc Hin]].
  assert (0 < f' c * (b - a)).
  { apply Rmult_lt_0_compat; [apply Hs; lra | lra]. }
  lra.
Qed.

Lemma gauss_int_strict (a b : R) : a < b -> gauss_int a < gauss_int b.
Proof.
  intros Hab. apply (deriv_pos_lt gauss_int gauss); auto.
  - intros; apply gauss_int_derivable_pt_lim.
  - intros; apply gauss_pos.
Qed.

Lemma std_normal_cdf_pos (x : R) : 0 < std_normal_cdf x.
Proof.
  unfold std_normal_cdf. assert (P := gauss_half_mass_pos).
  assert (H1 : gauss_int (- x) < gauss_int (- x + 1))
    by (apply gauss_int_strict; lra).
  assert (H2 := gauss_int_le_half_mass (- x + 1)).
  rewrite gauss_int_odd in H1.
  apply Rdiv_lt_0_compat; lra.
Qed.

Lemma std_normal_cdf_lt_1 (x : R) : std_normal_cdf x < 1.
Proof.
  assert (H := std_normal_cdf_symm x). assert (P := std_normal_cdf_pos (- x)).
  lra.
Qed.

Lemma discount_pos (K r t : R) : 0 < K -> 0 < K * exp (- r * t).
Proof. intros HK. apply Rmult_lt_0_compat; [exact HK | apply exp_pos]. Qed.

(** Far enough down, the spot makes [d2] as small as one wishes. *)
Lemma d2_small_spot (K t r sigma x0 S0 : R) :
  0 < S0 -> 0 < K -> 0 < sigma * sqrt t ->
  S0 <= K * exp (- r * t) * exp (x0 * (sigma * sqrt t)) ->
  d1 S0 K t r sigma - sigma * sqrt t <= x0.
Proof.
  intros HS HK Hv Hle. unfold d1. rewrite Q2R_half.
  set (v := sigma * sqrt t) in *.
  assert (Hpos : 0 < S0 * exp (r * t) / K).
  { apply Rdiv_lt_0_compat; [| exact HK].
    apply Rmult_lt_0_compat; [exact HS | apply exp_pos]. }
  assert (Hb : S0 * exp (r * t) / K <= exp (x0 * v)).
  { apply Rmult_le_reg_r with (K * exp (- r * t)); [apply discount_pos; exact HK |].
    replace (S0 * exp (r * t) / K * (K * exp (- r * t))) with S0.
    - lra.
    - replace (- r * t) with (- (r * t)) by ring. rewrite exp_Ropp.
      assert (He := exp_pos (r * t)). field. split; lra. }
  assert (Hl : ln (S0 * exp (r * t) / K) <= x0 * v).
  { rewrite <- (ln_exp (x0 * v)).
    destruct Hb as [Hb | Hb]; [left; apply ln_increasing; assumption |].
    rewrite Hb. lra. }
  assert (Hq : ln (S0 * exp (r * t) / K) / v <= x0).
  { apply Rmult_le_reg_r with v; [exact Hv |].
    unfold Rdiv. rewrite Rmult_assoc, Rinv_l by lra. lra. }
  replace (/ 2 * sigma * sqrt t) with (/ 2 * v) by (unfold v; ring).
  lra.
Qed.

Lemma CallOption_value_nonneg (S K t r sigma : R) :
  0 < S -> 0 < K -> 0 < t -> 0 < sigma ->
  0 <= CallOption_value S K t r sigma.
Proof.
  intros HS HK Ht Hs. apply Rnot_lt_le. intros Hneg.
  assert (Hv := vol_sqrt_pos sigma t Hs Ht).
  assert (HD := discount_pos K r t HK).
  set (D := K * exp (- r * t)) in *.
  assert (He : 0 < - CallOption_value S K t r sigma / D).
  { apply Rdiv_lt_0_compat; lra. }
  destruct (std_normal_cdf_limit_inf _ He) as [x0 Hx0].
  set (S0 := Rmin S (D * exp (x0 * (sigma * sqrt t)))).
  assert (HS0 : 0 < S0).
  { apply Rmin_glb_lt; [exact HS |].
    apply Rmult_lt_0_compat; [exact HD | apply exp_pos]. }
  assert (Hle : S0 <= S) by apply Rmin_l.
  assert (Hd2 := d2_small_spot K t r sigma x0 S0 HS0 HK Hv (Rmin_r _ _)).
  assert (Hm := CallOption_value_incr_spot K t r sigma S0 S HK Ht Hs HS0 Hle).
  rewrite (CallOption_value_R S0) in Hm. fold D in Hm.
  assert (H1 := std_normal_cdf_nonneg (d1 S0 K t r sigma)).
  destruct (Hx0 _ Hd2) as [_ H2].
  assert (H3 : D * std_normal_cdf (d1 S0 K t r sigma - sigma * sqrt t)
               < - CallOption_value S K t r sigma).
  { apply (Rmult_lt_compat_l D) in H2; [| exact HD].
    replace (D * (- CallOption_value S K t r sigma / D))
      with (- CallOption_value S K t r sigma) in H2 by (field; lra).
    exact H2. }
  assert (H4 : 0 <= S0 * std_normal_cdf (d1 S0 K t r sigma))
    by (apply Rmult_le_pos; lra).
  lra.
Qed.

(** Put-call symmetry: a put is a call with the roles of the spot and of
    the discounted strike exchanged, at rate 0. *)
Lemma PutOption_value_symmetry (S K t r sigma : R) :
  0 < S -> 0 < K -> 0 < sigma * sqrt t ->
  PutOption_value S K t r sigma
  = CallOption_value (K * exp (- r * t)) S t 0 sigma.
Proof.
  intros HS HK Hv.
  rewrite PutOption_value_R, CallOption_value_R.
  assert (HD := discount_pos K r t HK).
  assert (Hpos : 0 < S * exp (r * t) / K).
  { apply Rdiv_lt_0_compat; [| exact HK].
    apply Rmult_lt_0_compat; [exact HS | apply exp_pos]. }
  assert (E : d1 (K * exp (- r * t)) S t 0 sigma
              = - (d1 S K t r sigma - sigma * sqrt t)).
  { unfold d1. rewrite Q2R_half.
    replace (K * exp (- r * t) * exp (0 * t) / S) with (/ (S * exp (r * t) / K)).
    - rewrite ln_Rinv by exact Hpos.
      replace (/ 2 * sigma * sqrt t) with (/ 2 * (sigma * sqrt t)) by ring.
      set (v := sigma * sqrt t) in *. field. lra.
    - replace (0 * t) with 0 by ring. rewrite exp_0.
      replace (- r * t) with (- (r * t)) by ring. rewrite exp_Ropp.
      assert (He := exp_pos (r * t)). field. repeat split; lra. }
  rewrite E.
  replace (- (d1 S K t r sigma - sigma * sqrt t) - sigma * sqrt t)
    with (- d1 S K t r sigma) by ring.
  replace (- 0 * t) with 0 by ring. rewrite exp_0. ring.
Qed.

Lemma PutOption_value_nonneg (S K t r sigma : R) :
  0 < S -> 0 < K -> 0 < t -> 0 < sigma ->
  0 <= PutOption_value S K t r sigma.
Proof.
  intros HS HK Ht Hs.
  rewrite PutOption_value_symmetry by auto using vol_sqrt_pos.
  apply CallOption_value_nonneg; auto using discount_pos.
Qed.

(** The call gains at most what the spot gains. *)
Lemma spot_minus_call_incr (K t r sigma S1 S2 : R) :
  0 < K -> 0 < t -> 0 < sigma -> 0 < S1 -> S1 <= S2 ->
  S1 - CallOption_value S1 K t r sigma <= S2 - CallOption_value S2 K t r sigma.
Proof.
  intros HK Ht Hs H1 H12.
  apply (deriv_nonneg_le (fun S => S - CallOption_value S K t r sigma)
           (fun c => 1 - std_normal_cdf (d1 c K t r sigma))); auto.
  - intros c Hc.
    apply (derivable_pt_lim_minus (fun y => y)
             (fun S => CallOption_value S K t r sigma)).
    + apply derivable_pt_lim_id.
    + apply CallOption_value_delta; auto; lra.
  - intros c _. assert (H := std_normal_cdf_le_1 (d1 c K t r sigma)). lra.
Qed.

Lemma CallOption_value_strict_vol (S K t r sigma1 sigma2 : R) :
  0 < S -> 0 < K -> 0 < t -> 0 < sigma1 -> sigma1 < sigma2 ->
  CallOption_value S K t r sigma1 < CallOption_value S K t r sigma2.
Proof.
  intros HS HK Ht H1 H12.
  apply (deriv_pos_lt (fun sigma => CallOption_value S K t r sigma)
           (fun c => K * exp (- r * t)
                     * std_normal_pdf (d1 S K t r c - c * sqrt t) * sqrt t)); auto.
  - intros c Hc. apply CallOption_value_vega; auto; lra.
  - intros c _.
    apply Rmult_lt_0_compat; [| apply sqrt_lt_R0; exact Ht].
    apply Rmult_lt_0_compat; [| apply std_normal_pdf_pos].
    apply discount_pos; exact HK.
Qed.

(** X8: for positive spot, strike, expiry and volatility, the value of a
    call lies between the larger of the forward value [S - K exp(-r t)]
    and 0, and the spot. *)
Theorem CallOption_value_bounds (S K t r sigma : R) :
  0 < S -> 0 < K -> 0 < t -> 0 < sigma ->
  Rmax (Forward_value S K t r) 0 <= CallOption_value S K t r sigma <= S.
Proof.
  intros HS HK Ht Hs. split.
  - apply Rmax_lub.
    + assert (P := PutOption_value_nonneg S K t r sigma HS HK Ht Hs).
      rewrite PutOption_value_parity in P. lra.
    + apply CallOption_value_nonneg; assumption.
  - rewrite CallOption_value_R.
    assert (HD := discount_pos K r t HK).
    assert (H1 := std_normal_cdf_le_1 (d1 S K t r sigma)).
    assert (H2 := std_normal_cdf_nonneg (d1 S K t r sigma - sigma * sqrt t)).
    assert (H3 : S * std_normal_cdf (d1 S K t r sigma) <= S * 1)
      by (apply Rmult_le_compat_l; lra).
    assert (H4 : 0 <= K * exp (- r * t)
                      * std_normal_cdf (d1 S K t r sigma - sigma * sqrt t))
      by (apply Rmult_le_pos; lra).
    lra.
Qed.

Lemma CallOption_value_bounds_witness :
  Rmax (Forward_value 100 100 1 (/ 10)) 0
  <= CallOption_value 100 100 1 (/ 10) (/ 5) <= 100.
Proof.
  apply (CallOption_value_bounds 100 100 1 (/ 10) (/ 5)); lra.
Defined.

(** X9: under the same conditions the value of a put lies between the
    larger of [K exp(-r t) - S] and 0, and the discounted strike
    [K exp(-r t)]. *)
Theorem PutOption_value_bounds (S K t r sigma : R) :
  0 < S -> 0 < K -> 0 < t -> 0 < sigma ->
  Rmax (- Forward_value S K t r) 0
  <= PutOption_value S K t r sigma <= K * exp (- r * t).
Proof.
  intros HS HK Ht Hs. split.
  - apply Rmax_lub.
    + assert (P := CallOption_value_nonneg S K t r sigma HS HK Ht Hs).
      rewrite PutOption_value_parity. lra.
    + apply PutOption_value_nonneg; assumption.
  - rewrite PutOption_value_R.
    assert (HD := discount_pos K r t HK).
    assert (H1 := std_normal_cdf_nonneg (- d1 S K t r sigma)).
    assert (H2 := std_normal_cdf_le_1 (- (d1 S K t r sigma - sigma * sqrt t))).
    assert (H3 : K * exp (- r * t)
                 * std_normal_cdf (- (d1 S K t r sigma - sigma * sqrt t))
                 <= K * exp (- r * t) * 1)
      by (apply Rmult_le_compat_l; lra).
    assert (H4 : 0 <= S * std_normal_cdf (- d1 S K t r sigma))
      by (apply Rmult_le_pos; lra).
    lra.
Qed.

Lemma PutOption_value_bounds_witness :
  Rmax (- Forward_value 100 100 1 (/ 10)) 0
  <= PutOption_value 100 100 1 (/ 10) (/ 5) <= 100 * exp (- / 10 * 1).
Proof.
  apply (PutOption_value_bounds 100 100 1 (/ 10) (/ 5)); lra.
Defined.

(** X10: put-call symmetry.  The value of a put on spot [S] with strike
    [K] and rate [r] is the value of a call on spot [K exp(-r t)] with
    strike [S] and rate 0, the expiry and the volatility being the same. *)
Theorem put_call_symmetry (S K t r sigma : R) :
  0 < S -> 0 < K -> 0 < t -> 0 < sigma ->
  PutOption_value S K t r sigma
  = CallOption_value (K * exp (- r * t)) S t 0 sigma.
Proof.
  intros HS HK Ht Hs.
  apply PutOption_value_symmetry; auto using vol_sqrt_pos.
Qed.

Lemma put_call_symmetry_witness :
  PutOption_value 100 100 1 (/ 10) (/ 5)
  = CallOption_value (100 * exp (- / 10 * 1)) 100 1 0 (/ 5).
Proof.
  apply (put_call_symmetry 100 100 1 (/ 10) (/ 5)); lra.
Defined.

Lemma values_monotone_in_strike (S t r sigma K1 K2 : R) :
  0 < S -> 0 < t -> 0 < sigma -> 0 < K1 -> K1 <= K2 ->
  CallOption_value S K2 t r sigma <= CallOption_value S K1 t r sigma
  /\ PutOption_value S K1 t r sigma <= PutOption_value S K2 t r sigma.
Proof.
  intros HS Ht Hs H1 H12.
  assert (H2 : 0 < K2) by lra.
  assert (Hv := vol_sqrt_pos sigma t Hs Ht).
  assert (HD1 := discount_pos K1 r t H1).
  assert (HX : K1 * exp (- r * t) <= K2 * exp (- r * t)).
  { apply Rmult_le_compat_r; [left; apply exp_pos | exact H12]. }
  assert (Hp := CallOption_value_incr_spot S t 0 sigma _ _ HS Ht Hs HD1 HX).
  assert (Hq := spot_minus_call_incr S t 0 sigma _ _ HS Ht Hs HD1 HX).
  rewrite <- !PutOption_value_symmetry in Hp, Hq by assumption.
  split; [| exact Hp].
  assert (P1 := parity_values S K1 t r sigma).
  assert (P2 := parity_values S K2 t r sigma).
  rewrite Forward_value_R in P1, P2. lra.
Qed.

(** X11: with spot, rate, expiry and volatility fixed, the value of a
    call is non-increasing in the strike and the value of a put is
    non-decreasing in the strike. *)
Theorem strike_monotonicity (S t r sigma K1 K2 : R) :
  0 < S -> 0 < t -> 0 < sigma -> 0 < K1 -> K1 <= K2 ->
  CallOption_value S K2 t r sigma <= CallOption_value S K1 t r sigma
  /\ PutOption_value S K1 t r sigma <= PutOption_value S K2 t r sigma.
Proof. exact (values_monotone_in_strike S t r sigma K1 K2). Qed.

Lemma strike_monotonicity_witness :
  CallOption_value 100 110 1 (/ 10) (/ 5) <= CallOption_value 100 100 1 (/ 10) (/ 5)
  /\ PutOption_value 100 100 1 (/ 10) (/ 5) <= PutOption_value 100 110 1 (/ 10) (/ 5).
Proof.
  apply (strike_monotonicity 100 1 (/ 10) (/ 5) 100 110); lra.
Defined.

(** X12, in exact real arithmetic: the value determines the volatility.
    With positive spot, strike and expiry fixed, the value of a call and
    the value of a put are strictly increasing in the volatility
    [sigma > 0]; so two positive volatilities that give a call the same
    value, or a put the same value, are equal.  Float64 rounding maps
    nearby volatilities to one price, so this does not carry over to the
    floating-point result. *)
Theorem implied_volatility_is_unique (S K t r sigma1 sigma2 : R) :
  0 < S -> 0 < K -> 0 < t -> 0 < sigma1 -> 0 < sigma2 ->
  (sigma1 < sigma2 ->
   CallOption_value S K t r sigma1 < CallOption_value S K t r sigma2
   /\ PutOption_value S K t r sigma1 < PutOption_value S K t r sigma2)
  /\ (CallOption_value S K t r sigma1 = CallOption_value S K t r sigma2 ->
      sigma1 = sigma2)
  /\ (PutOption_value S K t r sigma1 = PutOption_value S K t r sigma2 ->
      sigma1 = sigma2).
Proof.
  intros HS HK Ht H1 H2.
  assert (C : CallOption_value S K t r sigma1 = CallOption_value S K t r sigma2 ->
              sigma1 = sigma2).
  { intros E. destruct (Rtotal_order sigma1 sigma2) as [Hlt | [Heq | Hgt]].
    - assert (X := CallOption_value_strict_vol S K t r _ _ HS HK Ht H1 Hlt). lra.
    - exact Heq.
    - assert (X := CallOption_value_strict_vol S K t r _ _ HS HK Ht H2 Hgt). lra. }
  split; [| split; [exact C |]].
  - intros Hlt.
    assert (X := CallOption_value_strict_vol S K t r _ _ HS HK Ht H1 Hlt).
    split; [exact X |]. rewrite !PutOption_value_parity. lra.
  - intros E. apply C. rewrite !PutOption_value_parity in E. lra.
Qed.

Lemma implied_volatility_is_unique_witness :
  CallOption_value 100 100 1 (/ 10) (/ 5) < CallOption_value 100 100 1 (/ 10) (/ 4)
  /\ PutOption_value 100 100 1 (/ 10) (/ 5) < PutOption_value 100 100 1 (/ 10) (/ 4)
  /\ (CallOption_value 100 100 1 (/ 10) (/ 5) = CallOption_value 100 100 1 (/ 10) (/ 4) ->
      / 5 = / 4)
  /\ (PutOption_value 100 100 1 (/ 10) (/ 5) = PutOption_value 100 100 1 (/ 10) (/ 4) ->
      / 5 = / 4).
Proof.
  assert (H : 0 < 100 /\ 0 < 100 /\ 0 < 1 /\ 0 < / 5 /\ 0 < / 4) by lra.
  destruct H as (HS & HK & Ht & H1 & H2).
  destruct (implied_volatility_is_unique 100 100 1 (/ 10) (/ 5) (/ 4)
              HS HK Ht H1 H2) as (Hlt & HC & HP).
  assert (H12 : / 5 < / 4) by lra.
  destruct (Hlt H12) as [LC LP].
  split; [exact LC | split; [exact LP | split; [exact HC | exact HP]]].
Defined.

(** X13: the sensitivities of the values.  In the spot the call has the
    derivative [N(d1)] and the put [N(d1) - 1]; in the volatility both
    have the derivative [K exp(-r t) N'(d2) sqrt(t)], where [N'] is the
    standard normal density. *)
Theorem value_sensitivities (S K t r sigma : R) :
  0 < S -> 0 < K -> 0 < t -> 0 < sigma ->
  derivable_pt_lim (fun x => CallOption_value x K t r sigma) S
    (std_normal_cdf (d1 S K t r sigma))
  /\ derivable_pt_lim (fun x => PutOption_value x K t r sigma) S
       (std_normal_cdf (d1 S K t r sigma) - 1)
  /\ derivable_pt_lim (fun x => CallOption_value S K t r x) sigma
       (K * exp (- r * t)
        * std_normal_pdf (d1 S K t r sigma - sigma * sqrt t) * sqrt t)
  /\ derivable_pt_lim (fun x => PutOption_value S K t r x) sigma
       (K * exp (- r * t)
        * std_normal_pdf (d1 S K t r sigma - sigma * sqrt t) * sqrt t).
Proof.
  intros HS HK Ht Hs.
  assert (Dc := CallOption_value_delta K t r sigma S HS HK Ht Hs).
  assert (Vc := CallOption_value_vega S K t r sigma HS HK Ht Hs).
  repeat split.
  - exact Dc.
  - apply (derivable_pt_lim_ext
             (fun x => CallOption_value x K t r sigma
                       - (x - K * exp (- r * t)))).
    { intros x. rewrite PutOption_value_parity, Forward_value_R. reflexivity. }
    apply (derivable_pt_lim_minus
             (fun x => CallOption_value x K t r sigma)
             (fun x => x - K * exp (- r * t))); [exact Dc |].
    apply dlim_eq with (1 - 0); [| lra].
    apply (derivable_pt_lim_minus (fun x => x) (fun _ => K * exp (- r * t))).
    + apply derivable_pt_lim_id.
    + apply (derivable_pt_lim_const (K * exp (- r * t))).
  - exact Vc.
  - apply (derivable_pt_lim_ext
             (fun x => CallOption_value S K t r x - Forward_value S K t r)).
    { intros x. rewrite PutOption_value_parity. reflexivity. }
    apply dlim_eq with
      (K * exp (- r * t)
       * std_normal_pdf (d1 S K t r sigma - sigma * sqrt t) * sqrt t - 0);
      [| lra].
    apply (derivable_pt_lim_minus
             (fun x => CallOption_value S K t r x)
             (fun _ => Forward_value S K t r)); [exact Vc |].
    apply (derivable_pt_lim_const (Forward_value S K t r)).
Qed.

Lemma value_sensitivities_witness :
  derivable_pt_lim (fun x => CallOption_value x 100 1 (/ 10) (/ 5)) 100
    (std_normal_cdf (d1 100 100 1 (/ 10) (/ 5)))
  /\ derivable_pt_lim (fun x => PutOption_value x 100 1 (/ 10) (/ 5)) 100
       (std_normal_cdf (d1 100 100 1 (/ 10) (/ 5)) - 1)
  /\ derivable_pt_lim (fun x => CallOption_value 100 100 1 (/ 10) x) (/ 5)
       (100 * exp (- / 10 * 1)
        * std_normal_pdf (d1 100 100 1 (/ 10) (/ 5) - / 5 * sqrt 1) * sqrt 1)
  /\ derivable_pt_lim (fun x => PutOption_value 100 100 1 (/ 10) x) (/ 5)
       (100 * exp (- / 10 * 1)
        * std_normal_pdf (d1 100 100 1 (/ 10) (/ 5) - / 5 * sqrt 1) * sqrt 1).
Proof.
  apply (value_sensitivities 100 100 1 (/ 10) (/ 5)); lra.
Defined.

(** ** The limit of vanishing volatility *)

Lemma gauss_le_1 (x : R) : gauss x <= 1.
Proof.
  unfold gauss. rewrite <- exp_0.
  destruct (Req_dec x 0) as [-> | Hx].
  - right. f_equal. lra.
  - left. apply exp_increasing. nra.
Qed.

Lemma std_normal_cdf_lipschitz (a b : R) :
  a <= b ->
  std_normal_cdf b - std_normal_cdf a <= (b - a) / (2 * gauss_half_mass).
Proof.
  intros Hab. assert (P := gauss_half_mass_pos).
  assert (H := deriv_nonneg_le
                 (fun x => / (2 * gauss_half_mass) * x - std_normal_cdf x)
                 (fun x => / (2 * gauss_half_mass) * 1 - std_normal_pdf x)
                 a b Hab).
  cbv beta in H. unfold Rdiv.
  enough (/ (2 * gauss_half_mass) * a - std_normal_cdf a
          <= / (2 * gauss_half_mass) * b - std_normal_cdf b) by lra.
  apply H.
  - intros c _.
    apply (derivable_pt_lim_minus (fun x => / (2 * gauss_half_mass) * x)
             std_normal_cdf).
    + apply (derivable_pt_lim_scal (fun x => x)). apply derivable_pt_lim_id.
    + apply std_normal_cdf_derivable_pt_lim.
  - intros c _. unfold std_normal_pdf, Rdiv.
    assert (G := gauss_le_1 c).
    assert (I : 0 < / (2 * gauss_half_mass)) by (apply Rinv_0_lt_compat; lra).
    nra.
Qed.

Lemma d1_as_moneyness (S K t r sigma : R) :
  d1 S K t r sigma
  = ln (S * exp (r * t) / K) / (sigma * sqrt t) + sigma * sqrt t / 2.
Proof. unfold d1. rewrite Q2R_half. unfold Rdiv. ring. Qed.

Lemma CallOption_value_lower (S K t r sigma : R) :
  0 < S -> 0 < K -> 0 < t -> 0 < sigma ->
  Rmax (Forward_value S K t r) 0 <= CallOption_value S K t r sigma.
Proof.
  intros HS HK Ht Hs. apply Rmax_lub.
  - assert (P := PutOption_value_nonneg S K t r sigma HS HK Ht Hs).
    rewrite PutOption_value_parity in P. lra.
  - apply CallOption_value_nonneg; assumption.
Qed.

(** Above the maximum of the forward value and 0 the call has as little
    as one wishes, for a small enough [sigma * sqrt t]. *)
Lemma CallOption_value_excess_small (S K t r eps : R) :
  0 < S -> 0 < K -> 0 < t -> 0 < eps ->
  exists v0,
    0 < v0
    /\ forall sigma,
         0 < sigma -> sigma * sqrt t < v0 ->
         CallOption_value S K t r sigma - Rmax (Forward_value S K t r) 0 < eps.
Proof.
  intros HS HK Ht He.
  assert (HD := discount_pos K r t HK).
  assert (Hst := sqrt_lt_R0 t Ht).
  assert (M1 : S - K * exp (- r * t) <= Rmax (Forward_value S K t r) 0)
    by exact (Rmax_l (Forward_value S K t r) 0).
  assert (M2 := Rmax_r (Forward_value S K t r) 0).
  set (a := ln (S * exp (r * t) / K)).
  assert (Hpos : 0 < S * exp (r * t) / K).
  { apply Rdiv_lt_0_compat; [| exact HK].
    apply Rmult_lt_0_compat; [exact HS | apply exp_pos]. }
  assert (Ea : S = K * exp (- r * t) * exp a).
  { unfold a. rewrite exp_ln by exact Hpos.
    replace (- r * t) with (- (r * t)) by ring. rewrite exp_Ropp.
    assert (X := exp_pos (r * t)). field. split; lra. }
  destruct (Rtotal_order a 0) as [Hneg | [Hzero | Hgt]].
  - (* out of the money: [d1] goes to minus infinity *)
    assert (He' : 0 < eps / S) by (apply Rdiv_lt_0_compat; assumption).
    destruct (std_normal_cdf_limit_inf _ He') as [x0 Hx0].
    assert (Hq : 0 < Rabs x0 + 1) by (assert (X := Rabs_pos x0); lra).
    exists (Rmin 1 (- a / (Rabs x0 + 1))). split.
    { apply Rmin_glb_lt; [lra | apply Rdiv_lt_0_compat; lra]. }
    intros sigma Hs Hv.
    assert (Hv0 := vol_sqrt_pos sigma t Hs Ht).
    set (v := sigma * sqrt t) in *.
    assert (Hv1 : v < 1) by (apply Rlt_le_trans with (1 := Hv); apply Rmin_l).
    assert (Hv2 : v < - a / (Rabs x0 + 1))
      by (apply Rlt_le_trans with (1 := Hv); apply Rmin_r).
    assert (Hav : a / v < - (Rabs x0 + 1)).
    { apply Rmult_lt_reg_r with v; [exact Hv0 |].
      unfold Rdiv. rewrite Rmult_assoc, Rinv_l by lra.
      apply (Rmult_lt_compat_r (Rabs x0 + 1)) in Hv2; [| exact Hq].
      unfold Rdiv in Hv2. rewrite Rmult_assoc, Rinv_l in Hv2 by lra. lra. }
    assert (Hd : d1 S K t r sigma <= x0).
    { rewrite d1_as_moneyness. fold a v.
      assert (X := Rle_abs (- x0)). rewrite Rabs_Ropp in X. lra. }
    destruct (Hx0 _ Hd) as [_ HN].
    rewrite CallOption_value_R. fold v.
    assert (H2 := std_normal_cdf_nonneg (d1 S K t r sigma - v)).
    assert (H3 : 0 <= K * exp (- r * t) * std_normal_cdf (d1 S K t r sigma - v))
      by (apply Rmult_le_pos; lra).
    assert (H4 : S * std_normal_cdf (d1 S K t r sigma) < eps).
    { apply (Rmult_lt_compat_l S) in HN; [| exact HS].
      replace (S * (eps / S)) with eps in HN by (field; lra). exact HN. }
    lra.
  - (* at the money forward: [d1] and [d2] go to 0 *)
    assert (P := gauss_half_mass_pos).
    rewrite Hzero, exp_0, Rmult_1_r in Ea.
    exists (eps * (2 * gauss_half_mass) / S). split.
    { apply Rdiv_lt_0_compat; [| exact HS]. apply Rmult_lt_0_compat; lra. }
    intros sigma Hs Hv.
    assert (Hv0 := vol_sqrt_pos sigma t Hs Ht).
    set (v := sigma * sqrt t) in *.
    assert (E1 : d1 S K t r sigma = v / 2).
    { rewrite d1_as_moneyness. fold a v. rewrite Hzero. unfold Rdiv. ring. }
    rewrite CallOption_value_R. fold v. rewrite E1, <- Ea.
    assert (L := std_normal_cdf_lipschitz (- (v / 2)) (v / 2)).
    replace (v / 2 - v) with (- (v / 2)) by lra.
    assert (L' : std_normal_cdf (v / 2) - std_normal_cdf (- (v / 2))
                 <= v / (2 * gauss_half_mass)).
    { replace (v / (2 * gauss_half_mass))
        with ((v / 2 - - (v / 2)) / (2 * gauss_half_mass)) by (field; lra).
      apply L. lra. }
    assert (B : S * (v / (2 * gauss_half_mass)) < eps).
    { apply (Rmult_lt_compat_r (S / (2 * gauss_half_mass))) in Hv.
      - replace (eps * (2 * gauss_half_mass) / S * (S / (2 * gauss_half_mass)))
          with eps in Hv by (field; lra).
        replace (S * (v / (2 * gauss_half_mass)))
          with (v * (S / (2 * gauss_half_mass))) by (field; lra).
        exact Hv.
      - apply Rdiv_lt_0_compat; lra. }
    assert (B' : S * (std_normal_cdf (v / 2) - std_normal_cdf (- (v / 2)))
                 <= S * (v / (2 * gauss_half_mass)))
      by (apply Rmult_le_compat_l; lra).
    lra.
  - (* in the money: [d2] goes to plus infinity *)
    assert (He' : 0 < eps / (K * exp (- r * t)))
      by (apply Rdiv_lt_0_compat; assumption).
    destruct (std_normal_cdf_limit_inf _ He') as [x0 Hx0].
    assert (Hq : 0 < Rabs x0 + 1) by (assert (X := Rabs_pos x0); lra).
    exists (Rmin 1 (a / (Rabs x0 + 1))). split.
    { apply Rmin_glb_lt; [lra | apply Rdiv_lt_0_compat; lra]. }
    intros sigma Hs Hv.
    assert (Hv0 := vol_sqrt_pos sigma t Hs Ht).
    set (v := sigma * sqrt t) in *.
    assert (Hv1 : v < 1) by (apply Rlt_le_trans with (1 := Hv); apply Rmin_l).
    assert (Hv2 : v < a / (Rabs x0 + 1))
      by (apply Rlt_le_trans with (1 := Hv); apply Rmin_r).
    assert (Hav : Rabs x0 + 1 < a / v).
    { apply Rmult_lt_reg_r with v; [exact Hv0 |].
      unfold Rdiv. rewrite (Rmult_assoc a), Rinv_l by lra.
      apply (Rmult_lt_compat_r (Rabs x0 + 1)) in Hv2; [| exact Hq].
      unfold Rdiv in Hv2. rewrite Rmult_assoc, Rinv_l in Hv2 by lra. lra. }
    assert (Hd : - (d1 S K t r sigma - v) <= x0).
    { rewrite d1_as_moneyness. fold a v.
      assert (X := Rle_abs (- x0)). rewrite Rabs_Ropp in X. lra. }
    destruct (Hx0 _ Hd) as [_ HN].
    rewrite CallOption_value_R. fold v.
    assert (Y := std_normal_cdf_symm (d1 S K t r sigma - v)).
    assert (H1 := std_normal_cdf_le_1 (d1 S K t r sigma)).
    assert (H3 : S * std_normal_cdf (d1 S K t r sigma) <= S * 1)
      by (apply Rmult_le_compat_l; lra).
    assert (H4 : K * exp (- r * t) * std_normal_cdf (- (d1 S K t r sigma - v))
                 < eps).
    { apply (Rmult_lt_compat_l (K * exp (- r * t))) in HN; [| exact HD].
      replace (K * exp (- r * t) * (eps / (K * exp (- r * t)))) with eps in HN
        by (assert (X := exp_pos (- r * t)); field; repeat split; lra).
      exact HN. }
    replace (std_normal_cdf (d1 S K t r sigma - v))
      with (1 - std_normal_cdf (- (d1 S K t r sigma - v))) by lra.
    lra.
Qed.

(** X14: as the volatility tends to 0 from above, the value of a call
    tends to the larger of [S - K exp(-r t)] and 0, and the value of a
    put to the larger of [K exp(-r t) - S] and 0. *)
Theorem zero_volatility_limit (S K t r eps : R) :
  0 < S -> 0 < K -> 0 < t -> 0 < eps ->
  exists delta,
    0 < delta
    /\ forall sigma,
         0 < sigma -> sigma < delta ->
         Rabs (CallOption_value S K t r sigma
               - Rmax (Forward_value S K t r) 0) < eps
         /\ Rabs (PutOption_value S K t r sigma
                  - Rmax (- Forward_value S K t r) 0) < eps.
Proof.
  intros HS HK Ht He.
  destruct (CallOption_value_excess_small S K t r eps HS HK Ht He)
    as (v0 & Hv0 & Hsmall).
  assert (Hst := sqrt_lt_R0 t Ht).
  exists (v0 / sqrt t). split; [apply Rdiv_lt_0_compat; assumption |].
  intros sigma Hs Hlt.
  assert (Hv : sigma * sqrt t < v0).
  { apply (Rmult_lt_compat_r (sqrt t)) in Hlt; [| exact Hst].
    unfold Rdiv in Hlt. rewrite Rmult_assoc, Rinv_l, Rmult_1_r in Hlt by lra.
    exact Hlt. }
  assert (U := Hsmall sigma Hs Hv).
  assert (L := CallOption_value_lower S K t r sigma HS HK Ht Hs).
  assert (E : PutOption_value S K t r sigma - Rmax (- Forward_value S K t r) 0
              = CallOption_value S K t r sigma - Rmax (Forward_value S K t r) 0).
  { rewrite PutOption_value_parity. unfold Rmax.
    destruct (Rle_dec (- Forward_value S K t r) 0),
             (Rle_dec (Forward_value S K t r) 0); lra. }
  rewrite E. split; apply Rabs_def1; lra.
Qed.

Lemma zero_volatility_limit_witness :
  exists delta,
    0 < delta
    /\ forall sigma,
         0 < sigma -> sigma < delta ->
         Rabs (CallOption_value 100 100 1 (/ 10) sigma
               - Rmax (Forward_value 100 100 1 (/ 10)) 0) < 1
         /\ Rabs (PutOption_value 100 100 1 (/ 10) sigma
                  - Rmax (- Forward_value 100 100 1 (/ 10)) 0) < 1.
Proof.
  apply (zero_volatility_limit 100 100 1 (/ 10) 1); lra.
Defined.

(** ** What the values depend on *)

Lemma exp_le_compat (x y : R) : x <= y -> exp x <= exp y.
Proof.
  intros [H | ->]; [left; apply exp_increasing; exact H | right; reflexivity].
Qed.

(** The values in canonical form: unit expiry, rate 0, the discounted
    strike for the strike and [sigma * sqrt t] for the volatility. *)
Lemma d1_canonical (S K t r sigma : R) :
  0 < K ->
  d1 S (K * exp (- r * t)) 1 0 (sigma * sqrt t) = d1 S K t r sigma.
Proof.
  intros HK. unfold d1. rewrite sqrt_1, !Rmult_1_r.
  replace (S * exp 0 / (K * exp (- r * t))) with (S * exp (r * t) / K);
    [unfold Rdiv; ring |].
  rewrite exp_0. replace (- r * t) with (- (r * t)) by ring. rewrite exp_Ropp.
  assert (X := exp_pos (r * t)). field. repeat split; lra.
Qed.

Lemma CallOption_value_canonical (S K t r sigma : R) :
  0 < K ->
  CallOption_value S K t r sigma
  = CallOption_value S (K * exp (- r * t)) 1 0 (sigma * sqrt t).
Proof.
  intros HK. rewrite !CallOption_value_R, d1_canonical by exact HK.
  replace (- 0 * 1) with 0 by ring. rewrite exp_0, sqrt_1, !Rmult_1_r.
  reflexivity.
Qed.

Lemma PutOption_value_canonical (S K t r sigma : R) :
  0 < K ->
  PutOption_value S K t r sigma
  = PutOption_value S (K * exp (- r * t)) 1 0 (sigma * sqrt t).
Proof.
  intros HK. rewrite !PutOption_value_R, d1_canonical by exact HK.
  replace (- 0 * 1) with 0 by ring. rewrite exp_0, sqrt_1, !Rmult_1_r.
  reflexivity.
Qed.

(** X15, in exact real arithmetic: the values of a call and of a put
    depend on the strike, the rate, the expiry and the volatility only
    through the discounted strike [K exp(-r t)] and the total volatility
    [sigma sqrt(t)]: instruments that agree on these two as real numbers
    have the same real values.  In float64 the two sides are computed
    through different roundings and may differ. *)
Theorem values_depend_on_discounted_strike_and_total_volatility
    (S K t r sigma K' t' r' sigma' : R) :
  0 < K -> 0 < K' ->
  K * exp (- r * t) = K' * exp (- r' * t') ->
  sigma * sqrt t = sigma' * sqrt t' ->
  CallOption_value S K t r sigma = CallOption_value S K' t' r' sigma'
  /\ PutOption_value S K t r sigma = PutOption_value S K' t' r' sigma'.
Proof.
  intros HK HK' ED EV.
  rewrite (CallOption_value_canonical S K), (CallOption_value_canonical S K'),
    (PutOption_value_canonical S K), (PutOption_value_canonical S K')
    by assumption.
  rewrite ED, EV. split; reflexivity.
Qed.

Lemma values_depend_on_discounted_strike_and_total_volatility_witness :
  CallOption_value 100 100 4 0 (/ 10) = CallOption_value 100 100 1 0 (/ 5)
  /\ PutOption_value 100 100 4 0 (/ 10) = PutOption_value 100 100 1 0 (/ 5).
Proof.
  apply (values_depend_on_discounted_strike_and_total_volatility
           100 100 4 0 (/ 10) 100 1 0 (/ 5)).
  - lra.
  - lra.
  - f_equal. f_equal. ring.
  - replace 4 with (2 * 2) by ring. rewrite sqrt_square by lra.
    rewrite sqrt_1. lra.
Defined.

(** X16: with spot, strike, expiry and volatility fixed, the value of a
    call is non-decreasing in the rate and the value of a put is
    non-increasing in the rate. *)
Theorem rate_monotonicity (S K t sigma r1 r2 : R) :
  0 < S -> 0 < K -> 0 < t -> 0 < sigma -> r1 <= r2 ->
  CallOption_value S K t r1 sigma <= CallOption_value S K t r2 sigma
  /\ PutOption_value S K t r2 sigma <= PutOption_value S K t r1 sigma.
Proof.
  intros HS HK Ht Hs Hr.
  rewrite (CallOption_value_canonical S K t r1), (CallOption_value_canonical S K t r2),
    (PutOption_value_canonical S K t r1), (PutOption_value_canonical S K t r2)
    by exact HK.
  assert (HD : K * exp (- r2 * t) <= K * exp (- r1 * t)).
  { apply Rmult_le_compat_l; [lra | apply exp_le_compat; nra]. }
  apply values_monotone_in_strike; auto using discount_pos, vol_sqrt_pos.
  lra.
Qed.

Lemma rate_monotonicity_witness :
  CallOption_value 100 100 1 0 (/ 5) <= CallOption_value 100 100 1 (/ 10) (/ 5)
  /\ PutOption_value 100 100 1 (/ 10) (/ 5) <= PutOption_value 100 100 1 0 (/ 5).
Proof.
  apply (rate_monotonicity 100 100 1 (/ 5) 0 (/ 10)); lra.
Defined.

(** X17: with a non-negative rate, the value of a call is non-decreasing
    in the time to expiry. *)
Theorem CallOption_value_monotone_in_expiry (S K r sigma t1 t2 : R) :
  0 < S -> 0 < K -> 0 <= r -> 0 < sigma -> 0 < t1 -> t1 <= t2 ->
  CallOption_value S K t1 r sigma <= CallOption_value S K t2 r sigma.
Proof.
  intros HS HK Hr Hs H1 H12.
  assert (H2 : 0 < t2) by lra.
  rewrite (CallOption_value_canonical S K t1), (CallOption_value_canonical S K t2)
    by exact HK.
  assert (HD : K * exp (- r * t2) <= K * exp (- r * t1)).
  { apply Rmult_le_compat_l; [lra | apply exp_le_compat; nra]. }
  assert (HV : sigma * sqrt t1 <= sigma * sqrt t2).
  { apply Rmult_le_compat_l; [lra | apply sqrt_le_1_alt; exact H12]. }
  apply Rle_trans with
    (CallOption_value S (K * exp (- r * t1)) 1 0 (sigma * sqrt t2)).
  - apply CallOption_value_incr_vol;
      auto using discount_pos, vol_sqrt_pos. lra.
  - apply (values_monotone_in_strike S 1 0 (sigma * sqrt t2));
      auto using discount_pos, vol_sqrt_pos. lra.
Qed.

Lemma CallOption_value_monotone_in_expiry_witness :
  CallOption_value 100 100 1 (/ 10) (/ 5) <= CallOption_value 100 100 2 (/ 10) (/ 5).
Proof.
  apply (CallOption_value_monotone_in_expiry 100 100 (/ 10) (/ 5) 1 2); lra.
Defined.

(** X18: the values are homogeneous of degree 1 in the spot and the
    strike: scaling both by [c > 0] scales the value of a call, of a put
    and of a forward by [c]. *)
Theorem values_are_homogeneous (c S K t r sigma : R) :
  0 < c -> 0 < K ->
  CallOption_value (c * S) (c * K) t r sigma = c * CallOption_value S K t r sigma
  /\ PutOption_value (c * S) (c * K) t r sigma
     = c * PutOption_value S K t r sigma
  /\ Forward_value (c * S) (c * K) t r = c * Forward_value S K t r.
Proof.
  intros Hc HK.
  assert (E : d1 (c * S) (c * K) t r sigma = d1 S K t r sigma).
  { unfold d1. replace (c * S * exp (r * t) / (c * K)) with (S * exp (r * t) / K);
      [reflexivity | field; lra]. }
  rewrite !CallOption_value_R, !PutOption_value_R, !Forward_value_R, E.
  repeat split; ring.
Qed.

Lemma values_are_homogeneous_witness :
  CallOption_value (2 * 100) (2 * 100) 1 (/ 10) (/ 5)
  = 2 * CallOption_value 100 100 1 (/ 10) (/ 5)
  /\ PutOption_value (2 * 100) (2 * 100) 1 (/ 10) (/ 5)
     = 2 * PutOption_value 100 100 1 (/ 10) (/ 5)
  /\ Forward_value (2 * 100) (2 * 100) 1 (/ 10) = 2 * Forward_value 100 100 1 (/ 10).
Proof.
  apply (values_are_homogeneous 2 100 100 1 (/ 10) (/ 5)); lra.
Defined.
